(** * SwagFluence: schema resolution and example synthesis

    A shallow embedding of the [swagger] resolver ([ResolveSchema],
    [resolveProperty], [resolveRef], [ExtractRefName]) and of the [example]
    generator ([buildExample] and its helpers).

    Go's [*Schema] is a pointer: the resolver writes through it and hands the
    same pointer back, so schemas live in an explicit store and a pointer is
    an optional location ([None] is [nil]).  Go maps are handled as values:
    neither package ever writes into an existing map, only into a map it has
    just made. *)

From Stdlib Require Import ZArith Ascii String.
From stdpp Require Import gmap strings list fin_maps pretty.

Local Open Scope string_scope.

(** ** Strings

    A Go string is a sequence of bytes, as is a [string] here. *)

(** [strings.HasPrefix]. *)
Fixpoint HasPrefix (s prefix : string) {struct prefix} : bool :=
  match prefix, s with
  | EmptyString, _ => true
  | String c prefix', String d s' => if decide (c = d) then HasPrefix s' prefix' else false
  | String _ _, EmptyString => false
  end.

Fixpoint string_drop (n : nat) (s : string) : string :=
  match n, s with
  | S n', String _ s' => string_drop n' s'
  | _, _ => s
  end.

(** [strings.TrimPrefix]. *)
Definition TrimPrefix (s prefix : string) : string :=
  if HasPrefix s prefix then string_drop (String.length prefix) s else s.

(** [strings.Contains]. *)
Fixpoint Contains (s substr : string) : bool :=
  HasPrefix s substr ||
  match s with
  | EmptyString => false
  | String _ s' => Contains s' substr
  end.

(** [strings.Split] for a separator of one byte, the only use the code makes
    of it: the pieces between the occurrences of [sep], one more than there
    are occurrences. *)
Fixpoint Split (s : string) (sep : ascii) : list string :=
  match s with
  | EmptyString => [EmptyString]
  | String c s' =>
      if decide (c = sep) then EmptyString :: Split s' sep
      else match Split s' sep with
           | piece :: pieces => String c piece :: pieces
           | [] => [String c EmptyString]
           end
  end.

Definition is_upper (c : ascii) : bool :=
  (65 <=? nat_of_ascii c)%nat && (nat_of_ascii c <=? 90)%nat.

Definition lower_byte (c : ascii) : ascii :=
  if is_upper c then ascii_of_nat (nat_of_ascii c + 32) else c.

Fixpoint isASCII (s : string) : bool :=
  match s with
  | EmptyString => true
  | String c s' => (nat_of_ascii c <? 128)%nat && isASCII s'
  end.

Fixpoint lower_bytes (s : string) : string :=
  match s with
  | EmptyString => EmptyString
  | String c s' => String (lower_byte c) (lower_bytes s')
  end.

(** ** Example values

    What an [interface{}] holds in this program: [nil], the generator's own
    literals and whatever [encoding/json] decoded for an [example].  A
    [float64] is kept as its IEEE-754 bit pattern, so [0.0] is [VFloat 0]. *)
#[local] Unset Elimination Schemes.
Inductive Value : Type :=
  | VNull
  | VBool (b : bool)
  | VInt (n : Z)
  | VFloat (bits : Z)
  | VString (s : string)
  | VList (l : list Value)
  | VObject (m : gmap string Value).
#[local] Set Elimination Schemes.

(** ** Data model ([swagger] types) *)

(** A location of the store, see below. *)
Abbreviation loc := nat.

(** [Minimum] and [Maximum] are [float64], kept as bit patterns like the
    numbers of [Value]; no function below reads them. *)
Record Property := mkProperty {
  pType : string;
  pDescription : string;
  pFormat : string;
  pRef : string;
  pItems : option loc;
  pExample : Value;
  pMinLength : Z;
  pMaxLength : Z;
  pMinimum : Z;
  pMaximum : Z;
  pPattern : string;
  pReadOnly : bool
}.

Record Schema := mkSchema {
  Type_ : string;
  Format : string;
  Ref : string;
  Properties : gmap string Property;
  Required : list string;
  Items : option loc
}.

Record Definition_ := mkDefinition {
  dType : string;
  dProperties : gmap string Property;
  dRequired : list string;
  dRef : string
}.

Record Components := mkComponents {
  Schemas : gmap string Definition_
}.

(** Of [Spec] the two definition tables; the resolver reads nothing else. *)
Record Spec := mkSpec {
  spComponents : option Components;
  spDefinitions : gmap string Definition_
}.

(** The zero values of Go. *)
Definition zeroProperty : Property :=
  mkProperty "" "" "" "" None VNull 0 0 0 0 "" false.

Definition zeroSchema : Schema := mkSchema "" "" "" ∅ [] None.

#[global] Instance Schema_inhabited : Inhabited Schema := populate zeroSchema.

(** Assignments to one field. *)
Definition withType (t : string) (p : Property) : Property :=
  mkProperty t (pDescription p) (pFormat p) (pRef p) (pItems p) (pExample p)
    (pMinLength p) (pMaxLength p) (pMinimum p) (pMaximum p) (pPattern p)
    (pReadOnly p).

Definition withItems (i : option loc) (p : Property) : Property :=
  mkProperty (pType p) (pDescription p) (pFormat p) (pRef p) i (pExample p)
    (pMinLength p) (pMaxLength p) (pMinimum p) (pMaximum p) (pPattern p)
    (pReadOnly p).

Definition setProperties (m : gmap string Property) (s : Schema) : Schema :=
  mkSchema (Type_ s) (Format s) (Ref s) m (Required s) (Items s).

Definition setItems (i : option loc) (s : Schema) : Schema :=
  mkSchema (Type_ s) (Format s) (Ref s) (Properties s) (Required s) i.

(** ** The store

    Schemas are allocated one after the other; a location is the position of
    its cell.  Go has no dangling pointer: every location the program holds
    came from an allocation.  Reading a location the store does not hold
    gives the zero [Schema], which neither package ever writes to. *)
Abbreviation heap := (list Schema).

(** [&Schema{...}] *)
Definition new (s : Schema) (h : heap) : heap * loc := ((h ++ [s])%list, length h).

(** ** Errors

    One constructor for each [fmt.Errorf] of the resolver; [%w] keeps the
    cause. *)
Inductive error : Type :=
  | ErrSchemaNotFound (name : string)
  | ErrDefinitionNotFound (name : string)
  | ErrUnsupportedRef (ref : string)
  | ErrProperty (key : string) (cause : error)
  | ErrItems (cause : error).

Fixpoint Error (e : error) : string :=
  match e with
  | ErrSchemaNotFound name => "schema not found: " +:+ name
  | ErrDefinitionNotFound name => "definition not found: " +:+ name
  | ErrUnsupportedRef ref => "unsupported $ref format: " +:+ ref
  | ErrProperty key cause =>
      "failed to resolve property " +:+ key +:+ ": " +:+ Error cause
  | ErrItems cause => "failed to resolve items: " +:+ Error cause
  end.

(** A Go pair [(x, err)] of which one half is [nil]. *)
Inductive res (A : Type) : Type :=
  | Ok (a : A)
  | Err (e : error).
Arguments Ok {A} a.
Arguments Err {A} e.

(** ** Resolver *)

Section Resolver.
(** The order in which [range] visits a map is not specified by Go: it is
    some enumeration of the entries, each once. *)
Variable range : gmap string Property → list (string * Property).
Variable spec : Spec.

(** The [&Schema{Type: def.Type, Properties: def.Properties,
    Required: def.Required}] of [resolveRef]. *)
Definition schemaOf (def : Definition_) : Schema :=
  mkSchema (dType def) "" "" (dProperties def) (dRequired def) None.

Definition resolveRef (ref : string) (h : heap) : heap * res loc :=
  if HasPrefix ref "#/components/schemas/" then
    let name := TrimPrefix ref "#/components/schemas/" in
    match spComponents spec with
    | Some c =>
        match Schemas c !! name with
        | Some def => let '(h', l) := new (schemaOf def) h in (h', Ok l)
        | None => (h, Err (ErrSchemaNotFound name))
        end
    | None => (h, Err (ErrSchemaNotFound name))
    end
  else if HasPrefix ref "#/definitions/" then
    let name := TrimPrefix ref "#/definitions/" in
    match spDefinitions spec !! name with
    | Some def => let '(h', l) := new (schemaOf def) h in (h', Ok l)
    | None => (h, Err (ErrDefinitionNotFound name))
    end
  else (h, Err (ErrUnsupportedRef ref)).

(** [prop] is passed by value: the assignments change the copy that is
    returned, also with an error. *)
Definition resolveProperty (prop : Property) (h : heap)
  : heap * (Property * option error) :=
  let '(h1, (prop1, err1)) :=
    if decide (pRef prop ≠ "") then
      match resolveRef (pRef prop) h with
      | (h1, Err e) => (h1, (prop, Some e))
      | (h1, Ok l) => (h1, (withType (Type_ (h1 !!! l)) prop, None))
      end
    else (h, (prop, None)) in
  match err1 with
  | Some e => (h1, (prop1, Some e))
  | None =>
      match pItems prop1 with
      | Some i =>
          if decide (Ref (h1 !!! i) ≠ "") then
            match resolveRef (Ref (h1 !!! i)) h1 with
            | (h2, Err e) => (h2, (prop1, Some e))
            | (h2, Ok l) => (h2, (withItems (Some l) prop1, None))
            end
          else (h1, (prop1, None))
      | None => (h1, (prop1, None))
      end
  end.

(** The loop [for key, prop := range schema.Properties] of
    [ResolveSchema], over the entries still to visit. *)
Fixpoint resolveProperties (entries : list (string * Property))
    (resolvedProperties : gmap string Property) (h : heap)
  : heap * res (gmap string Property) :=
  match entries with
  | [] => (h, Ok resolvedProperties)
  | (key, prop) :: entries' =>
      match resolveProperty prop h with
      | (h1, (_, Some e)) => (h1, Err (ErrProperty key e))
      | (h1, (resolvedProp, None)) =>
          resolveProperties entries' (<[key := resolvedProp]> resolvedProperties) h1
      end
  end.

(** The block [if len(schema.Properties) > 0 { ... }] of [ResolveSchema]
    for the schema at [l]: the store after it, and the error if a property
    failed, in which case [schema.Properties] is not assigned. *)
Definition resolveAllProperties (l : loc) (h : heap) : heap * option error :=
  if decide (0 < size (Properties (h !!! l))) then
    match resolveProperties (range (Properties (h !!! l))) ∅ h with
    | (h1, Err e) => (h1, Some e)
    | (h1, Ok resolvedProperties) =>
        (<[l := setProperties resolvedProperties (h1 !!! l)]> h1, None)
    end
  else (h, None).

(** [ResolveSchema] follows [schema.Items] for as long as it meets schemas
    that are not references; [n] bounds the number of calls, and [None]
    says that the bound was reached. *)
Fixpoint ResolveSchema (n : nat) (schema : option loc) (h : heap)
  : option (heap * res (option loc)) :=
  match n with
  | O => None
  | S n' =>
      match schema with
      | None => Some (h, Ok None)
      | Some l =>
          if decide (Ref (h !!! l) ≠ "") then
            match resolveRef (Ref (h !!! l)) h with
            | (h', Ok l') => Some (h', Ok (Some l'))
            | (h', Err e) => Some (h', Err e)
            end
          else
            match resolveAllProperties l h with
            | (h1, Some e) => Some (h1, Err e)
            | (h1, None) =>
                match Items (h1 !!! l) with
                | Some i =>
                    match ResolveSchema n' (Some i) h1 with
                    | None => None
                    | Some (h2, Err e) => Some (h2, Err (ErrItems e))
                    | Some (h2, Ok resolved) =>
                        Some (<[l := setItems resolved (h2 !!! l)]> h2, Ok (Some l))
                    end
                | None => Some (h1, Ok (Some l))
                end
            end
      end
  end.

End Resolver.

(** [ExtractRefName] *)
Definition ExtractRefName (ref : string) : string :=
  let parts := Split ref "/" in
  if decide (0 < length parts) then default ref (last parts) else ref.

(** ** Example generator *)

Section Generator.
Variable range : gmap string Property → list (string * Property).

(** [strings.ToLower] works byte by byte on a string of ASCII bytes; any
    other string goes through the Unicode case tables of the Go library,
    which this repository does not hold. *)
Variable unicodeToLower : string → string.

Definition ToLower (s : string) : string :=
  if isASCII s then lower_bytes s else unicodeToLower s.

Definition buildStringExample (schema : Schema) : string :=
  if decide (Format schema = "date") then "2024-01-15"
  else if decide (Format schema = "date-time") then "2024-01-15T10:30:00Z"
  else if decide (Format schema = "email") then "user@example.com"
  else "string".

Definition generateStringValue (fieldName : string) (prop : Property) : string :=
  let fieldLower := ToLower fieldName in
  if decide (pFormat prop = "date") then "2024-01-15"
  else if decide (pFormat prop = "date-time") then "2024-01-15T10:30:00Z"
  else if bool_decide (pFormat prop = "email") || Contains fieldLower "email"
  then "user@example.com"
  else if Contains fieldLower "name" then "Sample " +:+ fieldName
  else if Contains fieldLower "id" then "123e4567-e89b-12d3-a456-426614174000"
  else "string".

Section Calls.
(** The functions that call [buildExample] take it as [self]; the knot is
    tied below.  [depth] is a Go [int]; it is only ever incremented from
    a value of at most 11, so it never wraps. *)
Variable self : option loc → Z → option Value.

Definition buildPropertyExample (fieldName : string) (prop : Property)
    (depth : Z) : option Value :=
  match pExample prop with
  | VNull =>
      if decide (pRef prop ≠ "") then
        Some (VString ("<" +:+ ExtractRefName (pRef prop) +:+ ">"))
      else if bool_decide (pType prop = "array") && bool_decide (pItems prop ≠ None) then
        itemExample ← self (pItems prop) (depth + 1);
        Some (VList [itemExample])
      else if decide (pType prop = "string") then
        Some (VString (generateStringValue fieldName prop))
      else if bool_decide (pType prop = "integer") || bool_decide (pType prop = "number") then
        Some (VInt 0)
      else if decide (pType prop = "boolean") then Some (VBool false)
      else if decide (pType prop = "object") then Some (VObject ∅)
      else Some VNull
  | example => Some example
  end.

(** The loop [for name, prop := range schema.Properties] of
    [buildObjectExample], over the entries still to visit. *)
Fixpoint buildFields (entries : list (string * Property)) (depth : Z)
    (obj : gmap string Value) : option (gmap string Value) :=
  match entries with
  | [] => Some obj
  | (name, prop) :: entries' =>
      v ← buildPropertyExample name prop (depth + 1);
      buildFields entries' depth (<[name := v]> obj)
  end.

Definition buildObjectExample (schema : Schema) (depth : Z) : option Value :=
  VObject <$> buildFields (range (Properties schema)) depth ∅.

Definition buildArrayExample (schema : Schema) (depth : Z) : option Value :=
  match Items schema with
  | None => Some (VList [])
  | Some i =>
      itemExample ← self (Some i) (depth + 1);
      Some (VList [itemExample])
  end.
End Calls.

(** [n] bounds the number of nested calls, and [None] says that the bound
    was reached. *)
Fixpoint buildExample (n : nat) (h : heap) (schema : option loc) (depth : Z)
  : option Value :=
  match n with
  | O => None
  | S n' =>
      match schema with
      | None => Some VNull
      | Some l =>
          if decide (10 < depth)%Z then Some VNull
          else
            let s := h !!! l in
            if decide (Type_ s = "object") then
              buildObjectExample (buildExample n' h) s depth
            else if decide (Type_ s = "array") then
              buildArrayExample (buildExample n' h) s depth
            else if decide (Type_ s = "string") then
              Some (VString (buildStringExample s))
            else if decide (Type_ s = "integer") then Some (VInt 0)
            else if decide (Type_ s = "number") then Some (VFloat 0)
            else if decide (Type_ s = "boolean") then Some (VBool false)
            else Some VNull
      end
  end.

End Generator.

(** The calls that [buildExample] nests below the depth guard. *)
Definition fuelFor (depth : Z) : nat := S (Z.to_nat (11 - depth)).
Arguments fuelFor : simpl never.

(** ** The specifications of the resolver tests *)

Definition typed (t : string) : Property := withType t zeroProperty.

Definition refTo (ref : string) : Property :=
  mkProperty "" "" "" ref None VNull 0 0 0 0 "" false.

Definition refSchema (ref : string) : Schema := mkSchema "" "" ref ∅ [] None.

(** [TestResolver_ResolveSchema] *)
Definition userDefinition : Definition_ :=
  mkDefinition "object" {[ "id" := typed "integer"; "name" := typed "string" ]} [] "".

Definition userSpec : Spec := mkSpec None {[ "User" := userDefinition ]}.

(** [TestResolver_ResolveNestedSchema] *)
Definition nestedSpec : Spec :=
  mkSpec
    (Some (mkComponents
       {[ "Address" := mkDefinition "object"
            {[ "street" := typed "string"; "city" := typed "string" ]} [] "";
          "User" := mkDefinition "object"
            {[ "name" := typed "string";
               "address" := refTo "#/components/schemas/Address" ]} [] "" ]}))
    ∅.

(** A store whose only schema is its own element type. *)
Definition loopHeap : heap := [mkSchema "array" "" "" ∅ [] (Some 0%nat)].

(** [ref] names the definition [D] in the table that its prefix selects. *)
Definition refersTo (spec : Spec) (ref : string) (D : Definition_) : Prop :=
  (∃ name, ref = "#/definitions/" +:+ name ∧ spDefinitions spec !! name = Some D)
  ∨ (∃ name c, ref = "#/components/schemas/" +:+ name
       ∧ spComponents spec = Some c ∧ Schemas c !! name = Some D).

(** An object written out, with one property that is a reference. *)
Definition ownerSchema : Schema :=
  mkSchema "object" "" "" {[ "owner" := refTo "#/definitions/User" ]} [] None.

(** An array whose element type is a reference: the array, then the
    reference. *)
Definition usersHeap : heap :=
  [mkSchema "array" "" "" ∅ [] (Some 1%nat); refSchema "#/definitions/User"].

(** The schema of [TestGenerator_BuildArrayExample]: the array, then its
    element type. *)
Definition arrayTestHeap : heap :=
  [mkSchema "array" "" "" ∅ [] (Some 1%nat);
   mkSchema "object" "" "" {[ "id" := typed "integer" ]} [] None].

(** What the specification asks of the generator at a property that is a
    reference, in the specification's words: resolve the reference and build
    the example of the result, and give the text [<Name>] only when the
    resolution fails.  It is compared with [buildPropertyExample] below. *)
Definition spec_referenceExample
    (range : gmap string Property → list (string * Property))
    (unicodeToLower : string → string) (spec : Spec) (n : nat) (h : heap)
    (prop : Property) (depth : Z) : option Value :=
  match resolveRef spec (pRef prop) h with
  | (h', Ok l) => buildExample range unicodeToLower n h' (Some l) depth
  | (_, Err _) => Some (VString ("<" +:+ ExtractRefName (pRef prop) +:+ ">"))
  end.

(** ** Formatter ([confluence]): what it reads off schemas and properties *)

(** [strings.Join] *)
Fixpoint Join (elems : list string) (sep : string) : string :=
  match elems with
  | [] => ""
  | [e] => e
  | e :: elems' => e +:+ sep +:+ Join elems' sep
  end.

Fixpoint isFieldRequired (fieldName : string) (required : list string) : bool :=
  match required with
  | [] => false
  | req :: required' =>
      if decide (req = fieldName) then true else isFieldRequired fieldName required'
  end.

(** [prop.Items] is a pointer, read in the store [h]. *)
Definition getPropertyType (h : heap) (prop : Property) : string :=
  if decide (pRef prop ≠ "") then ExtractRefName (pRef prop)
  else
    let typeStr := pType prop in
    let typeStr :=
      if decide (pFormat prop ≠ "") then typeStr +:+ " (" +:+ pFormat prop +:+ ")"
      else typeStr in
    match pItems prop with
    | Some i =>
        if decide (pType prop = "array") then
          if decide (Ref (h !!! i) ≠ "") then
            typeStr +:+ "[" +:+ ExtractRefName (Ref (h !!! i)) +:+ "]"
          else if decide (Type_ (h !!! i) ≠ "") then
            typeStr +:+ "[" +:+ Type_ (h !!! i) +:+ "]"
          else typeStr
        else typeStr
    | None => typeStr
    end.

Record Parameter_ := mkParameter {
  paName : string;
  paIn : string;
  paDescription : string;
  paRequired : bool;
  paType : string;
  paFormat : string;
  paSchema : option loc
}.

Definition getParameterType (h : heap) (param : Parameter_) : string :=
  if decide (paType param ≠ "") then
    if decide (paFormat param ≠ "") then
      paType param +:+ " (" +:+ paFormat param +:+ ")"
    else paType param
  else
    match paSchema param with
    | Some l =>
        if decide (Type_ (h !!! l) ≠ "") then Type_ (h !!! l)
        else if decide (Ref (h !!! l) ≠ "") then ExtractRefName (Ref (h !!! l))
        else ""
    | None => ""
    end.

(** [%d] of an [int] is [pretty]. *)
Definition formatConstraints (fieldName : string) (prop : Property)
    (required : list string) : string :=
  let constraints : list string := [] in
  let constraints :=
    if isFieldRequired fieldName required then
      (constraints ++ ["<strong>Required</strong>"])%list
    else constraints in
  let constraints :=
    if bool_decide (0 < pMinLength prop)%Z && bool_decide (0 < pMaxLength prop)%Z then
      (constraints
       ++ ["Length: " +:+ pretty (pMinLength prop) +:+ "-" +:+ pretty (pMaxLength prop)])%list
    else if bool_decide (0 < pMinLength prop)%Z then
      (constraints ++ ["Min length: " +:+ pretty (pMinLength prop)])%list
    else if bool_decide (0 < pMaxLength prop)%Z then
      (constraints ++ ["Max length: " +:+ pretty (pMaxLength prop)])%list
    else constraints in
  let constraints :=
    if decide (pPattern prop ≠ "") then
      (constraints ++ ["Pattern: <code>" +:+ pPattern prop +:+ "</code>"])%list
    else constraints in
  if decide (0 < length constraints)%nat then Join constraints "<br/>" else "-".

(** ** Configuration ([config]) *)

Record ConfluenceConfig := mkConfluenceConfig {
  BaseURL : string;
  Username : string;
  APIToken : string;
  SpaceKey : string;
  ParentPageID : string;
  Enabled : bool
}.

Record Config := mkConfig {
  Confluence : ConfluenceConfig
}.

(** [Getenv] is [os.Getenv]: the value of a variable of the environment, the
    empty string when it is not set.  The error returned is always [nil]. *)
Definition LoadFromEnv (Getenv : string → string) : Config * option error :=
  let cfg :=
    mkConfig
      (mkConfluenceConfig
         (Getenv "CONFLUENCE_BASE_URL") (Getenv "CONFLUENCE_USERNAME")
         (Getenv "CONFLUENCE_API_TOKEN") (Getenv "CONFLUENCE_SPACE_KEY")
         (Getenv "CONFLUENCE_PARENT_PAGE_ID") false) in
  let enabled :=
    bool_decide (BaseURL (Confluence cfg) ≠ "")
    && bool_decide (Username (Confluence cfg) ≠ "")
    && bool_decide (APIToken (Confluence cfg) ≠ "")
    && bool_decide (SpaceKey (Confluence cfg) ≠ "") in
  (mkConfig
     (mkConfluenceConfig
        (BaseURL (Confluence cfg)) (Username (Confluence cfg))
        (APIToken (Confluence cfg)) (SpaceKey (Confluence cfg))
        (ParentPageID (Confluence cfg)) enabled),
   None).

Definition IsConfluenceEnabled (c : Config) : bool := Enabled (Confluence c).

(** ** More relations, for the statements below *)

(** [p'] is [p] but for its kind and its element type. *)
Definition sameBut (p p' : Property) : Prop :=
  ∃ t i, p' = withItems i (withType t p).

(** [m'] has the fields of [m], each the same but for its kind and its
    element type. *)
Definition fieldsKept (m m' : gmap string Property) : Prop :=
  ∀ key,
    match m !! key, m' !! key with
    | Some p, Some p' => sameBut p p'
    | None, None => True
    | _, _ => False
    end.

(** A property that mentions no reference: it is none, and its element type
    is none. *)
Definition plain (h : heap) (p : Property) : Prop :=
  pRef p = "" ∧ ∀ i, pItems p = Some i → Ref (h !!! i) = "".

(** A property as [resolveProperty] leaves it: if it is a reference, its
    kind is that of the definition, and its element type is no reference. *)
Definition settled (spec : Spec) (h : heap) (p : Property) : Prop :=
  (pRef p ≠ "" → ∃ D, refersTo spec (pRef p) D ∧ pType p = dType D)
  ∧ ∀ i, pItems p = Some i → Ref (h !!! i) = "".

(** From [p] on there are at most [k] schemas, none of them a reference and
    none with a property that mentions one. *)
Inductive referenceFree (h : heap) : nat → option loc → Prop :=
  | free_nil (k : nat) : referenceFree h k None
  | free_cell (k : nat) (l : loc) :
      Ref (h !!! l) = "" →
      (∀ key p, Properties (h !!! l) !! key = Some p → plain h p) →
      referenceFree h k (Items (h !!! l)) →
      referenceFree h (S k) (Some l).

(** ** Relations between stores and between calls, for the statements below *)

(** [l] is reached from the pointer [p] along [Items]. *)
Inductive onItemsChain (h : heap) : option loc → loc → Prop :=
  | chain_here (l : loc) : onItemsChain h (Some l) l
  | chain_next (p : option loc) (l l' : loc) :
      onItemsChain h p l → Items (h !!! l) = Some l' → onItemsChain h p l'.

(** From [p], [ResolveSchema] meets [nil] or a reference after at most [k]
    schemas that are written out. *)
Inductive chainEnds (h : heap) : nat → option loc → Prop :=
  | ends_nil (k : nat) : chainEnds h k None
  | ends_ref (k : nat) (l : loc) : Ref (h !!! l) ≠ "" → chainEnds h k (Some l)
  | ends_next (k : nat) (l : loc) :
      Ref (h !!! l) = "" → chainEnds h k (Items (h !!! l)) →
      chainEnds h (S k) (Some l).

(** [h'] is [h] with new cells after it, none of them a reference or an
    array. *)
Definition grows (h h' : heap) : Prop :=
  ∃ cells, h' = (h ++ cells)%list ∧ Forall (λ s, Ref s = "" ∧ Items s = None) cells.

(** From [h] to [h'] no cell was lost, no [Ref] has changed, no element type
    has appeared, and the cells of [h] have kept their kind, format and
    required names. *)
Definition evolves (h h' : heap) : Prop :=
  (length h ≤ length h')%nat
  ∧ ∀ x : loc,
      Ref (h' !!! x) = Ref (h !!! x)
      ∧ (Items (h !!! x) = None → Items (h' !!! x) = None)
      ∧ ((x < length h)%nat →
         Type_ (h' !!! x) = Type_ (h !!! x)
         ∧ Format (h' !!! x) = Format (h !!! x)
         ∧ Required (h' !!! x) = Required (h !!! x)).

(** No property of [m] has a reference as its element type. *)
Definition itemsResolved (h : heap) (m : gmap string Property) : Prop :=
  ∀ key prop i, m !! key = Some prop → pItems prop = Some i → Ref (h !!! i) = "".

(** [self'] returns what [self] returns, and maybe more. *)
Definition below (self self' : option loc → Z → option Value) : Prop :=
  ∀ schema depth v, self schema depth = Some v → self' schema depth = Some v.

(** [x] is a schema written out that [ResolveSchema] enters when it is
    called on [l]: [l] itself, or one reached from it through [Items] past
    schemas that are written out. *)
Inductive walked (h : heap) : loc → loc → Prop :=
  | walked_here (l : loc) : Ref (h !!! l) = "" → walked h l l
  | walked_next (l l' x : loc) :
      Ref (h !!! l) = "" → Items (h !!! l) = Some l' → walked h l' x →
      walked h l x.

(** ** Errors and schemas for the further properties *)

(** The errors of [resolveRef]. *)
Definition lookupError (e : error) : Prop :=
  match e with
  | ErrSchemaNotFound _ | ErrDefinitionNotFound _ | ErrUnsupportedRef _ => True
  | ErrProperty _ _ | ErrItems _ => False
  end.

(** An error of [resolveRef], maybe wrapped once as the failure of a
    property, inside any number of wrappings as the failure of an element
    type. *)
Fixpoint errorShape (e : error) : Prop :=
  match e with
  | ErrItems cause => errorShape cause
  | ErrProperty _ cause => lookupError cause
  | _ => True
  end.

(** An object written out, with one property that refers to a definition
    the tables of the tests do not hold. *)
Definition petSchema : Schema :=
  mkSchema "object" "" "" {[ "pet" := refTo "#/definitions/Pet" ]} [] None.

(** A table whose one definition has a property that refers to a
    definition the table does not hold. *)
Definition danglingSpec : Spec :=
  mkSpec None
    {[ "User" := mkDefinition "object" {[ "pet" := refTo "#/definitions/Pet" ]} [] "" ]}.

(** A property of kind array whose element type is the schema at [1]. *)
Definition listProperty : Property := withItems (Some 1%nat) (typed "array").

(** An object written out with one field, a list of strings: the object,
    then the element type of the field. *)
Definition tagsHeap : heap :=
  [mkSchema "object" "" "" {[ "tags" := listProperty ]} [] None;
   mkSchema "string" "" "" ∅ [] None].

(** * Properties *)

(** ** Strings *)

Lemma HasPrefix_app (p s : string) : HasPrefix (p +:+ s) p = true.
Proof.
  induction p as [|c p IH]; simpl; [done|].
  destruct (decide (c = c)); [exact IH|done].
Qed.

Lemma string_drop_app (p s : string) : string_drop (String.length p) (p +:+ s) = s.
Proof. induction p as [|c p IH]; simpl; [by destruct s|exact IH]. Qed.

Lemma TrimPrefix_app (p s : string) : TrimPrefix (p +:+ s) p = s.
Proof. unfold TrimPrefix. by rewrite HasPrefix_app, string_drop_app. Qed.

Lemma HasPrefix_nonempty (s p : string) : HasPrefix s p = true → p ≠ "" → s ≠ "".
Proof. destruct p, s; simpl; congruence. Qed.

(** ** [resolveRef] *)

Section ResolveRef.
Variable spec : Spec.

Lemma resolveRef_definitions (name : string) (D : Definition_) (h : heap) :
  spDefinitions spec !! name = Some D →
  resolveRef spec ("#/definitions/" +:+ name) h
  = ((h ++ [schemaOf D])%list, Ok (length h)).
Proof.
  intros HD. unfold resolveRef.
  replace (HasPrefix ("#/definitions/" +:+ name) "#/components/schemas/")
    with false by reflexivity.
  rewrite HasPrefix_app, TrimPrefix_app, HD. reflexivity.
Qed.

Lemma resolveRef_components (name : string) (c : Components) (D : Definition_)
    (h : heap) :
  spComponents spec = Some c → Schemas c !! name = Some D →
  resolveRef spec ("#/components/schemas/" +:+ name) h
  = ((h ++ [schemaOf D])%list, Ok (length h)).
Proof.
  intros Hc HD. unfold resolveRef.
  rewrite HasPrefix_app, TrimPrefix_app, Hc, HD. reflexivity.
Qed.

Lemma resolveRef_refersTo (ref : string) (D : Definition_) (h : heap) :
  refersTo spec ref D →
  resolveRef spec ref h = ((h ++ [schemaOf D])%list, Ok (length h)).
Proof.
  intros [(name & -> & HD)|(name & c & -> & Hc & HD)].
  - by apply resolveRef_definitions.
  - by eapply resolveRef_components.
Qed.

Lemma refersTo_nonempty (ref : string) (D : Definition_) :
  refersTo spec ref D → ref ≠ "".
Proof. intros [(name & -> & _)|(name & c & -> & _)]; discriminate. Qed.

(** What a call of [resolveRef] does to the store: nothing, or one new
    cell that is no reference and has no element type. *)
Lemma resolveRef_store (ref : string) (h h' : heap) (r : res loc) :
  resolveRef spec ref h = (h', r) →
  (h' = h ∧ ∃ e, r = Err e)
  ∨ (∃ D, h' = (h ++ [schemaOf D])%list ∧ r = Ok (length h)).
Proof.
  unfold resolveRef, new. intros H.
  repeat (case_match; simplify_eq); eauto.
Qed.

Lemma resolveRef_unsupported (ref : string) (h : heap) :
  HasPrefix ref "#/definitions/" = false →
  HasPrefix ref "#/components/schemas/" = false →
  resolveRef spec ref h = (h, Err (ErrUnsupportedRef ref)).
Proof. intros H1 H2. unfold resolveRef. by rewrite H2, H1. Qed.
End ResolveRef.

Section ResolverLaws.
Variable range : gmap string Property → list (string * Property).
Variable spec : Spec.

Lemma ResolveSchema_ref (n : nat) (l : loc) (h : heap) :
  Ref (h !!! l) ≠ "" →
  ResolveSchema range spec (S n) (Some l) h
  = Some (match resolveRef spec (Ref (h !!! l)) h with
          | (h', Ok l') => (h', Ok (Some l'))
          | (h', Err e) => (h', Err e)
          end).
Proof.
  intros Href. simpl. destruct (decide (Ref (h !!! l) ≠ "")); [|done].
  by destruct (resolveRef _ _ _) as [h' [l'|e]].
Qed.

Lemma ResolveSchema_refersTo (ref : string) (D : Definition_) (n : nat)
    (l : loc) (h : heap) :
  refersTo spec ref D → Ref (h !!! l) = ref →
  ResolveSchema range spec (S n) (Some l) h
  = Some ((h ++ [schemaOf D])%list, Ok (Some (length h))).
Proof.
  intros HD Hl.
  rewrite ResolveSchema_ref by (rewrite Hl; by eapply refersTo_nonempty).
  by rewrite Hl, (resolveRef_refersTo _ _ _ _ HD).
Qed.

(** C7.  A reference string that starts with neither [#/definitions/] nor
    [#/components/schemas/] makes [resolveRef] fail with the error
    [unsupported $ref format: <ref>], whatever the definition tables hold,
    and [ResolveSchema] hands that very error on, unwrapped, for a schema
    that carries such a reference. *)
Theorem unsupported_reference_format (ref : string) (h : heap) :
  HasPrefix ref "#/definitions/" = false →
  HasPrefix ref "#/components/schemas/" = false →
  resolveRef spec ref h = (h, Err (ErrUnsupportedRef ref))
  ∧ Error (ErrUnsupportedRef ref) = "unsupported $ref format: " +:+ ref
  ∧ ∀ n l, Ref (h !!! l) = ref → ref ≠ "" →
      ResolveSchema range spec (S n) (Some l) h
      = Some (h, Err (ErrUnsupportedRef ref)).
Proof.
  intros H1 H2. split; [by apply resolveRef_unsupported|]. split; [done|].
  intros n l Hl Hne. rewrite ResolveSchema_ref by congruence.
  by rewrite Hl, resolveRef_unsupported.
Qed.

(** C6.  A reference to a definition [D] of the table that its prefix
    selects resolves, and the schema returned has the kind, the fields with
    their descriptions and the required names of [D]; it is a new cell, no
    reference itself.  This holds for every [D], so for each one without
    references. *)
Theorem resolve_reference_shape (ref : string) (D : Definition_) (n : nat)
    (l : loc) (h : heap) :
  refersTo spec ref D → Ref (h !!! l) = ref →
  ∃ h' l' s,
    ResolveSchema range spec (S n) (Some l) h = Some (h', Ok (Some l'))
    ∧ h' !! l' = Some s
    ∧ Type_ s = dType D ∧ Properties s = dProperties D
    ∧ Required s = dRequired D ∧ Ref s = "" ∧ Items s = None.
Proof.
  intros HD Hl.
  exists (h ++ [schemaOf D])%list, (length h), (schemaOf D).
  split; [by eapply ResolveSchema_refersTo|].
  split; [|done]. by rewrite lookup_app_r, Nat.sub_diag.
Qed.
End ResolverLaws.

(** ** The generator *)

Section GeneratorLaws.
Variable range : gmap string Property → list (string * Property).
Variable unicodeToLower : string → string.

Abbreviation buildExample' := (buildExample range unicodeToLower).
Abbreviation buildPropertyExample' := (buildPropertyExample unicodeToLower).
Abbreviation buildFields' := (buildFields unicodeToLower).
Abbreviation generateStringValue' := (generateStringValue unicodeToLower).
Abbreviation ToLower' := (ToLower unicodeToLower).

Lemma fuelFor_succ (depth : Z) (n : nat) :
  (depth ≤ 10)%Z → (fuelFor depth ≤ S n → fuelFor (depth + 1) ≤ n)%nat.
Proof. unfold fuelFor. lia. Qed.

Lemma fuelFor_mono (d d' : Z) : (d ≤ d')%Z → (fuelFor d' ≤ fuelFor d)%nat.
Proof. unfold fuelFor. lia. Qed.

Lemma buildExample_S (n : nat) (h : heap) (l : loc) (depth : Z) :
  (depth ≤ 10)%Z →
  buildExample' (S n) h (Some l) depth
  = if decide (Type_ (h !!! l) = "object") then
      buildObjectExample range unicodeToLower (buildExample' n h) (h !!! l) depth
    else if decide (Type_ (h !!! l) = "array") then
      buildArrayExample (buildExample' n h) (h !!! l) depth
    else if decide (Type_ (h !!! l) = "string") then
      Some (VString (buildStringExample (h !!! l)))
    else if decide (Type_ (h !!! l) = "integer") then Some (VInt 0)
    else if decide (Type_ (h !!! l) = "number") then Some (VFloat 0)
    else if decide (Type_ (h !!! l) = "boolean") then Some (VBool false)
    else Some VNull.
Proof. intros Hd. simpl. by destruct (decide (10 < depth)%Z); [lia|]. Qed.

Lemma buildExample_guard (n : nat) (h : heap) (schema : option loc) (depth : Z) :
  (10 < depth)%Z → buildExample' (S n) h schema depth = Some VNull.
Proof.
  intros Hd. simpl. destruct schema; [|done].
  by destruct (decide (10 < depth)%Z).
Qed.

(** *** Every call returns *)

Lemma buildPropertyExample_returns (self : option loc → Z → option Value)
    (fieldName : string) (prop : Property) (depth : Z) :
  (∀ schema, is_Some (self schema (depth + 1)%Z)) →
  is_Some (buildPropertyExample' self fieldName prop depth).
Proof.
  intros Hself. unfold buildPropertyExample.
  destruct (pExample prop); try done.
  repeat (case_match; try done).
  destruct (Hself (pItems prop)) as [v ->]. done.
Qed.

Lemma buildFields_returns (self : option loc → Z → option Value)
    (entries : list (string * Property)) (depth : Z) (obj : gmap string Value) :
  (∀ schema, is_Some (self schema (depth + 1 + 1)%Z)) →
  is_Some (buildFields' self entries depth obj).
Proof.
  intros Hself. revert obj.
  induction entries as [|[name prop] entries IH]; intros obj; simpl; [done|].
  destruct (buildPropertyExample_returns self name prop (depth + 1) Hself)
    as [v ->].
  apply IH.
Qed.

Lemma buildExample_returns (n : nat) (h : heap) (schema : option loc) (depth : Z) :
  (fuelFor depth ≤ n)%nat → is_Some (buildExample' n h schema depth).
Proof.
  revert schema depth.
  induction n as [|n IH]; intros schema depth Hn; [unfold fuelFor in Hn; lia|].
  simpl. destruct schema as [l|]; [|done].
  destruct (decide (10 < depth)%Z) as [|Hd]; [done|].
  assert (∀ d, (depth < d)%Z → ∀ schema, is_Some (buildExample' n h schema d))
    as Hself.
  { intros d Hlt schema. apply IH.
    etransitivity; [apply (fuelFor_mono (depth + 1)); lia|].
    apply fuelFor_succ; [lia|done]. }
  repeat (case_match; try done).
  - unfold buildObjectExample.
    destruct (buildFields_returns (buildExample' n h)
                (range (Properties (h !!! l))) depth ∅) as [obj ->]; [|done].
    apply Hself. lia.
  - unfold buildArrayExample. destruct (Items (h !!! l)) as [i|]; [|done].
    destruct (Hself (depth + 1)%Z ltac:(lia) (Some i)) as [v ->]. done.
Qed.

(** *** More calls allowed, same value *)

Lemma buildPropertyExample_below (self self' : option loc → Z → option Value)
    (fieldName : string) (prop : Property) (depth : Z) (v : Value) :
  below self self' →
  buildPropertyExample' self fieldName prop depth = Some v →
  buildPropertyExample' self' fieldName prop depth = Some v.
Proof.
  intros Hb. unfold buildPropertyExample.
  destruct (pExample prop); try done.
  repeat (case_match; try done).
  destruct (self (pItems prop) (depth + 1)%Z) as [w|] eqn:Hw; [|done].
  by rewrite (Hb _ _ _ Hw).
Qed.

Lemma buildFields_below (self self' : option loc → Z → option Value)
    (entries : list (string * Property)) (depth : Z)
    (obj obj' : gmap string Value) :
  below self self' →
  buildFields' self entries depth obj = Some obj' →
  buildFields' self' entries depth obj = Some obj'.
Proof.
  intros Hb. revert obj.
  induction entries as [|[name prop] entries IH]; intros obj; simpl; [done|].
  destruct (buildPropertyExample' self name prop (depth + 1)) as [v|] eqn:Hv;
    [|done].
  rewrite (buildPropertyExample_below _ _ _ _ _ _ Hb Hv). apply IH.
Qed.

Lemma buildExample_below (n : nat) (h : heap) :
  below (buildExample' n h) (buildExample' (S n) h).
Proof.
  induction n as [|n IH]; intros schema depth v; [done|].
  destruct schema as [l|]; [|done].
  destruct (decide (10 < depth)%Z) as [|Hd];
    [by rewrite !buildExample_guard|].
  rewrite !buildExample_S by lia.
  repeat (case_match; try done).
  - unfold buildObjectExample in *.
    destruct (buildFields' (buildExample' n h) _ depth ∅) as [obj|] eqn:Hobj;
      [|done].
    by rewrite (buildFields_below _ _ _ _ _ _ IH Hobj).
  - unfold buildArrayExample in *. destruct (Items (h !!! l)) as [i|]; [|done].
    destruct (buildExample' n h (Some i) (depth + 1)%Z) as [w|] eqn:Hw; [|done].
    by rewrite (IH _ _ _ Hw).
Qed.

Lemma buildExample_more (n k : nat) (h : heap) (schema : option loc)
    (depth : Z) (v : Value) :
  buildExample' n h schema depth = Some v →
  buildExample' (n + k) h schema depth = Some v.
Proof.
  intros H. induction k as [|k IH]; [by rewrite Nat.add_0_r|].
  rewrite Nat.add_succ_r. by apply buildExample_below.
Qed.

Lemma buildExample_stable (n : nat) (h : heap) (schema : option loc)
    (depth : Z) :
  (fuelFor depth ≤ n)%nat →
  buildExample' n h schema depth = buildExample' (fuelFor depth) h schema depth.
Proof.
  intros Hn.
  destruct (buildExample_returns (fuelFor depth) h schema depth) as [v Hv];
    [done|].
  rewrite Hv. replace n with (fuelFor depth + (n - fuelFor depth))%nat by lia.
  by apply buildExample_more.
Qed.

(** C5.  [buildExample] returns a value for every store, every schema
    pointer and every starting depth, also when the store is cyclic: the
    calls it nests are bounded by the depth alone ([fuelFor depth] of them
    are enough, and allowing more changes nothing), since every nested call
    is made at a greater depth and a depth above 10 gives [nil].  There is
    no error to return. *)
Theorem buildExample_total (h : heap) (schema : option loc) (depth : Z) :
  ∃ v, (∀ k, buildExample' (fuelFor depth + k) h schema depth = Some v)
       ∧ ((10 < depth)%Z → v = VNull).
Proof.
  destruct (buildExample_returns (fuelFor depth) h schema depth) as [v Hv];
    [done|].
  exists v. split.
  - intros k. by apply buildExample_more.
  - intros Hd. unfold fuelFor in Hv. simpl in Hv.
    destruct schema; [|congruence].
    destruct (decide (10 < depth)%Z); [congruence|done].
Qed.

(** C10.  For a schema of kind array within the depth bound, the example
    is a list: empty when the schema has no element type, and otherwise of
    exactly one element, the example of the element type one level
    deeper. *)
Theorem array_example_length (n : nat) (h : heap) (l : loc) (depth : Z) :
  Type_ (h !!! l) = "array" → (depth ≤ 10)%Z → (fuelFor depth ≤ n)%nat →
  ∃ items,
    buildExample' n h (Some l) depth = Some (VList items)
    ∧ match Items (h !!! l) with
      | None => items = []
      | Some i =>
          ∃ itemExample, items = [itemExample]
            ∧ ∀ k, buildExample' (fuelFor (depth + 1) + k) h (Some i) (depth + 1)
                   = Some itemExample
      end.
Proof.
  intros Harr Hd Hn. destruct n as [|n]; [unfold fuelFor in Hn; lia|].
  assert (buildExample' (S n) h (Some l) depth
          = buildArrayExample (buildExample' n h) (h !!! l) depth) as ->.
  { simpl. destruct (decide (10 < depth)%Z); [lia|]. by rewrite Harr. }
  unfold buildArrayExample.
  destruct (Items (h !!! l)) as [i|]; [|by exists []].
  assert (fuelFor (depth + 1) ≤ n)%nat as Hn' by by apply fuelFor_succ.
  destruct (buildExample_returns n h (Some i) (depth + 1)%Z Hn') as [v Hv].
  rewrite Hv. exists [v]. split; [done|]. exists v. split; [done|].
  intros k. rewrite buildExample_stable in Hv by done.
  by apply buildExample_more.
Qed.

(** C4, as the code has it.  A property that is a reference and carries no
    example of its own gives the text [<Name>], where [Name] is what
    follows the last [/] of the reference; the generator consults no
    definition table, so this does not depend on whether the definition
    exists. *)
Theorem reference_placeholder (self : option loc → Z → option Value)
    (fieldName : string) (prop : Property) (depth : Z) :
  pExample prop = VNull → pRef prop ≠ "" →
  buildPropertyExample' self fieldName prop depth
  = Some (VString ("<" +:+ ExtractRefName (pRef prop) +:+ ">")).
Proof.
  intros Hex Href. unfold buildPropertyExample. rewrite Hex.
  by destruct (decide (pRef prop ≠ "")).
Qed.

Lemma buildPropertyExample_string (self : option loc → Z → option Value)
    (fieldName : string) (prop : Property) (depth : Z) :
  pExample prop = VNull → pRef prop = "" → pType prop = "string" →
  buildPropertyExample' self fieldName prop depth
  = Some (VString (generateStringValue' fieldName prop)).
Proof.
  intros Hex Href Hty. unfold buildPropertyExample.
  rewrite Hex, Href, Hty. reflexivity.
Qed.

(** C9.  The literals for strings.  For a property of kind string that is
    no reference and has no example: format [date] gives ["2024-01-15"],
    format [date-time] gives ["2024-01-15T10:30:00Z"]; with neither format,
    a field name whose lower-case form contains [email] gives
    ["user@example.com"], [userEmail] being one; and with none of the three
    formats and none of [email], [name], [id] in the lower-case field name
    the value is ["string"].  For a schema of kind string within the depth
    bound the format alone decides, in the same way. *)
Theorem string_literals :
  (∀ self fieldName prop depth,
     pExample prop = VNull → pRef prop = "" → pType prop = "string" →
     buildPropertyExample' self fieldName prop depth
     = Some (VString (generateStringValue' fieldName prop)))
  ∧ (∀ fieldName prop,
       pFormat prop = "date" → generateStringValue' fieldName prop = "2024-01-15")
  ∧ (∀ fieldName prop,
       pFormat prop = "date-time" →
       generateStringValue' fieldName prop = "2024-01-15T10:30:00Z")
  ∧ (∀ fieldName prop,
       pFormat prop ≠ "date" → pFormat prop ≠ "date-time" →
       Contains (ToLower' fieldName) "email" = true →
       generateStringValue' fieldName prop = "user@example.com")
  ∧ (∀ prop,
       pFormat prop = "" → generateStringValue' "userEmail" prop = "user@example.com")
  ∧ (∀ fieldName prop,
       pFormat prop ≠ "date" → pFormat prop ≠ "date-time" →
       pFormat prop ≠ "email" →
       Contains (ToLower' fieldName) "email" = false →
       Contains (ToLower' fieldName) "name" = false →
       Contains (ToLower' fieldName) "id" = false →
       generateStringValue' fieldName prop = "string")
  ∧ (∀ n h l depth,
       Type_ (h !!! l) = "string" → (depth ≤ 10)%Z →
       buildExample' (S n) h (Some l) depth
       = Some (VString (buildStringExample (h !!! l))))
  ∧ (∀ schema, Format schema = "date" → buildStringExample schema = "2024-01-15")
  ∧ (∀ schema,
       Format schema = "date-time" →
       buildStringExample schema = "2024-01-15T10:30:00Z")
  ∧ (∀ schema,
       Format schema ≠ "date" → Format schema ≠ "date-time" →
       Format schema ≠ "email" → buildStringExample schema = "string").
Proof.
  repeat split.
  - apply buildPropertyExample_string.
  - intros fieldName prop Hf. unfold generateStringValue.
    by rewrite Hf.
  - intros fieldName prop Hf. unfold generateStringValue.
    by rewrite Hf.
  - intros fieldName prop H1 H2 Hc. unfold generateStringValue.
    rewrite Hc, orb_true_r. by repeat case_decide.
  - intros prop Hf. unfold generateStringValue. by rewrite Hf.
  - intros fieldName prop H1 H2 H3 Hc1 Hc2 Hc3.
    unfold generateStringValue. rewrite Hc1, Hc2, Hc3.
    rewrite bool_decide_eq_false_2 by done. by repeat case_decide.
  - intros n h l depth Hty Hd. simpl.
    destruct (decide (10 < depth)%Z); [lia|]. by rewrite Hty.
  - intros schema Hf. unfold buildStringExample. by rewrite Hf.
  - intros schema Hf. unfold buildStringExample. by rewrite Hf.
  - intros schema H1 H2 H3. unfold buildStringExample. by repeat case_decide.
Qed.
End GeneratorLaws.

(** ** Objects *)

Section ObjectLaws.
Variable range : gmap string Property → list (string * Property).
Hypothesis range_perm : ∀ m, range m ≡ₚ map_to_list m.
Variable unicodeToLower : string → string.

Abbreviation buildPropertyExample' := (buildPropertyExample unicodeToLower).

Lemma buildFields_lookup (self : option loc → Z → option Value)
    (f : string → Property → Value) (entries : list (string * Property))
    (depth : Z) (obj : gmap string Value) :
  NoDup entries.*1 →
  (∀ name prop, (name, prop) ∈ entries →
     buildPropertyExample' self name prop (depth + 1) = Some (f name prop)) →
  ∃ obj',
    buildFields unicodeToLower self entries depth obj = Some obj'
    ∧ (∀ name prop, (name, prop) ∈ entries → obj' !! name = Some (f name prop))
    ∧ (∀ name, name ∉ entries.*1 → obj' !! name = obj !! name).
Proof.
  revert obj.
  induction entries as [|[k0 p0] entries IH]; intros obj Hnd Hf.
  { exists obj. split; [done|]. split; [|done]. intros ?? []%elem_of_nil. }
  apply NoDup_cons in Hnd as [Hk0 Hnd]. simpl.
  rewrite (Hf k0 p0) by left. simpl.
  destruct (IH (<[k0 := f k0 p0]> obj) Hnd) as (obj' & -> & Hin & Hout).
  { intros name prop Hel. apply Hf. by right. }
  exists obj'. split; [done|]. split.
  - intros name prop [[= -> ->]|Hel]%elem_of_cons; [|by apply Hin].
    by rewrite Hout, lookup_insert_eq.
  - intros name [Hne Hnot]%not_elem_of_cons.
    by rewrite Hout, lookup_insert_ne.
Qed.

(** The example of an object has the declared fields, each with the
    example of its property, in whatever order [range] visits them. *)
Lemma buildObjectExample_fields (self : option loc → Z → option Value)
    (f : string → Property → Value) (schema : Schema) (depth : Z) :
  (∀ name prop, Properties schema !! name = Some prop →
     buildPropertyExample' self name prop (depth + 1) = Some (f name prop)) →
  buildObjectExample range unicodeToLower self schema depth
  = Some (VObject (map_imap (λ name prop, Some (f name prop)) (Properties schema))).
Proof.
  intros Hf. unfold buildObjectExample.
  assert (NoDup (range (Properties schema)).*1) as Hnd.
  { rewrite (range_perm (Properties schema)). apply NoDup_fst_map_to_list. }
  assert (∀ name prop, (name, prop) ∈ range (Properties schema)
                       ↔ Properties schema !! name = Some prop) as Hel.
  { intros name prop. rewrite (range_perm (Properties schema)).
    apply elem_of_map_to_list. }
  destruct (buildFields_lookup self f (range (Properties schema)) depth ∅ Hnd)
    as (obj' & -> & Hin & Hout).
  { intros name prop ?%Hel. by apply Hf. }
  simpl. do 2 f_equal. apply map_eq. intros name.
  rewrite map_lookup_imap.
  destruct (Properties schema !! name) as [prop|] eqn:Hname; simpl.
  - apply Hin. by apply Hel.
  - rewrite Hout; [done|].
    intros ((name' & prop) & -> & Hin')%list_elem_of_fmap.
    destruct (name', prop) as [name'' prop''] eqn:E. simplify_eq.
    apply Hel in Hin'. simpl in Hname. congruence.
Qed.

(** C8.  Let [D] be an object definition with the two fields [id], of kind
    integer, and [name], of kind string, plain ones: no example, no
    reference, and for [name] none of the formats that have a literal of
    their own.  Resolving a reference to [D] and building the example of
    the result at depth 0 gives the mapping of [id] to the number 0 and of
    [name] to ["Sample name"], and nothing else. *)
Theorem resolve_then_example (spec : Spec) (ref : string) (D : Definition_)
    (pid pname : Property) (h : heap) (l : loc) (n k : nat) :
  refersTo spec ref D → Ref (h !!! l) = ref →
  dType D = "object" →
  dProperties D = {[ "id" := pid; "name" := pname ]} →
  pType pid = "integer" → pExample pid = VNull → pRef pid = "" →
  pType pname = "string" → pExample pname = VNull → pRef pname = "" →
  pFormat pname ≠ "date" → pFormat pname ≠ "date-time" →
  pFormat pname ≠ "email" →
  ∃ h' resolved,
    ResolveSchema range spec (S n) (Some l) h = Some (h', Ok resolved)
    ∧ buildExample range unicodeToLower (fuelFor 0 + k) h' resolved 0
      = Some (VObject {[ "id" := VInt 0; "name" := VString "Sample name" ]}).
Proof.
  intros HD Hl Hobj Hprops Hid1 Hid2 Hid3 Hn1 Hn2 Hn3 Hf1 Hf2 Hf3.
  eexists _, _. split; [by eapply ResolveSchema_refersTo|].
  apply buildExample_more. unfold fuelFor.
  set (h' := (h ++ [schemaOf D])%list).
  assert (h' !!! length h = schemaOf D) as Hcell.
  { unfold h'. by rewrite lookup_total_app_r, Nat.sub_diag. }
  rewrite buildExample_S, Hcell by lia.
  change (Type_ (schemaOf D)) with (dType D). rewrite Hobj.
  destruct (decide ("object" = "object")); [|done].
  rewrite (buildObjectExample_fields _
             (λ name _, if decide (name = "id") then VInt 0
                        else VString "Sample name")).
  - do 2 f_equal. apply map_eq. intros name. rewrite map_lookup_imap.
    change (Properties (schemaOf D)) with (dProperties D). rewrite Hprops.
    destruct (decide (name = "id")) as [->|Hne1]; [done|].
    rewrite !(lookup_insert_ne _ "id") by done.
    destruct (decide (name = "name")) as [->|Hne2].
    + by rewrite !lookup_singleton_eq.
    + by rewrite !lookup_singleton_ne.
  - intros name prop. change (Properties (schemaOf D)) with (dProperties D).
    rewrite Hprops. destruct (decide (name = "id")) as [->|Hne1].
    + rewrite lookup_insert_eq. intros [= <-].
      unfold buildPropertyExample. rewrite Hid2, Hid3, Hid1. reflexivity.
    + rewrite lookup_insert_ne by done.
      intros [<- <-]%lookup_singleton_Some.
      rewrite buildPropertyExample_string by done.
      unfold generateStringValue. by repeat case_decide.
Qed.
End ObjectLaws.

(** ** The resolver and the store *)

Lemma grows_refl (h : heap) : grows h h.
Proof. exists []. by rewrite app_nil_r. Qed.

Lemma grows_trans (h1 h2 h3 : heap) : grows h1 h2 → grows h2 h3 → grows h1 h3.
Proof.
  intros (c1 & -> & H1) (c2 & -> & H2). exists (c1 ++ c2)%list.
  split; [by rewrite app_assoc|]. by apply Forall_app.
Qed.

Lemma grows_lookup (h h' : heap) (x : loc) :
  grows h h' → (x < length h)%nat → h' !! x = h !! x.
Proof. intros (c & -> & _) Hx. by apply lookup_app_l. Qed.

Lemma grows_lookup_total (h h' : heap) (x : loc) :
  grows h h' → (x < length h)%nat → h' !!! x = h !!! x.
Proof. intros (c & -> & _) Hx. by apply lookup_total_app_l. Qed.

Lemma grows_fresh (h h' : heap) (x : loc) :
  grows h h' → (length h ≤ x)%nat → Ref (h' !!! x) = "" ∧ Items (h' !!! x) = None.
Proof.
  intros (c & -> & Hc) Hx. rewrite lookup_total_app_r by done.
  rewrite list_lookup_total_alt.
  destruct (c !! (x - length h)%nat) as [s|] eqn:Hs; [|done].
  by eapply (Forall_lookup_1 _ _ _ _ Hc).
Qed.

Lemma zero_beyond (h : heap) (x : loc) : (length h ≤ x)%nat → h !!! x = zeroSchema.
Proof.
  intros Hx. rewrite list_lookup_total_alt.
  by rewrite (lookup_ge_None_2 h x Hx).
Qed.

Lemma grows_evolves (h h' : heap) : grows h h' → evolves h h'.
Proof.
  intros Hg. split.
  { destruct Hg as (c & -> & _). rewrite length_app. lia. }
  intros x. destruct (decide (x < length h)%nat) as [Hx|Hx].
  - by rewrite (grows_lookup_total _ _ _ Hg Hx).
  - destruct (grows_fresh _ _ x Hg) as [-> ->]; [lia|].
    rewrite zero_beyond by lia. repeat split; [done|lia..].
Qed.

Lemma evolves_refl (h : heap) : evolves h h.
Proof. by split. Qed.

Lemma evolves_trans (h1 h2 h3 : heap) : evolves h1 h2 → evolves h2 h3 → evolves h1 h3.
Proof.
  intros [Hl1 H1] [Hl2 H2]. split; [lia|]. intros x.
  destruct (H1 x) as (Hr1 & Hi1 & Hk1), (H2 x) as (Hr2 & Hi2 & Hk2).
  split; [congruence|]. split; [auto|].
  intros Hx. destruct (Hk1 Hx) as (? & ? & ?).
  destruct Hk2 as (? & ? & ?); [lia|]. repeat split; congruence.
Qed.

Lemma evolves_setProperties (h : heap) (l : loc) (m : gmap string Property) :
  evolves h (<[l := setProperties m (h !!! l)]> h).
Proof.
  split; [by rewrite length_insert|]. intros x.
  rewrite list_lookup_total_insert. by case_decide as Hx; [destruct Hx as [-> _]|].
Qed.

Lemma evolves_setItems (h : heap) (l : loc) (i : option loc) :
  Items (h !!! l) ≠ None → evolves h (<[l := setItems i (h !!! l)]> h).
Proof.
  intros Hi. split; [by rewrite length_insert|]. intros x.
  rewrite list_lookup_total_insert. by case_decide as Hx; [destruct Hx as [-> _]|].
Qed.

Lemma itemsResolved_evolves (h h' : heap) (m : gmap string Property) :
  evolves h h' → itemsResolved h m → itemsResolved h' m.
Proof.
  intros [_ He] Hm key prop i Hkey Hi.
  destruct (He i) as [-> _]. by eapply Hm.
Qed.

(** *** Chains of element types *)

Lemma chain_cons (h : heap) (l x : loc) :
  onItemsChain h (Items (h !!! l)) x → onItemsChain h (Some l) x.
Proof.
  remember (Items (h !!! l)) as p eqn:Hp. intros Hc. revert Hp.
  induction Hc as [l'|p l1 l2 Hc IH Hstep]; intros Hp.
  - by eapply chain_next; [apply chain_here|].
  - by eapply chain_next; [apply IH|].
Qed.

Lemma chain_head (h : heap) (l x : loc) :
  onItemsChain h (Some l) x → x = l ∨ onItemsChain h (Items (h !!! l)) x.
Proof.
  remember (Some l) as p eqn:Hp. intros Hc. revert Hp.
  induction Hc as [l'|p l1 l2 Hc IH Hstep]; intros Hp.
  - left. congruence.
  - right. destruct (IH Hp) as [->|Hc'].
    + rewrite Hstep. apply chain_here.
    + by eapply chain_next.
Qed.

Lemma chain_None (h : heap) (x : loc) : ¬ onItemsChain h None x.
Proof.
  remember None as p eqn:Hp. intros Hc.
  induction Hc as [l'|p l1 l2 Hc IH Hstep]; [done|auto].
Qed.

(** A chain of [h'] is a chain of [h] when [h'] has no step that [h] has
    not. *)
Lemma chain_within (h h' : heap) (p : option loc) (x : loc) :
  (∀ y z, Items (h' !!! y) = Some z → Items (h !!! y) = Some z) →
  onItemsChain h' p x → onItemsChain h p x.
Proof.
  intros Hw Hc. induction Hc as [l'|p l1 l2 Hc IH Hstep]; [apply chain_here|].
  eapply chain_next; [apply IH|]. by apply Hw.
Qed.

(** *** What each function does to the store *)

Section StoreLaws.
Variable range : gmap string Property → list (string * Property).
Variable spec : Spec.

Lemma resolveRef_grows (ref : string) (h h' : heap) (r : res loc) :
  resolveRef spec ref h = (h', r) →
  grows h h' ∧ ∀ l, r = Ok l → l = length h ∧ Ref (h' !!! l) = "".
Proof.
  intros [[-> [e ->]]|(D & -> & ->)]%resolveRef_store.
  - split; [apply grows_refl|done].
  - split; [by exists [schemaOf D]; repeat constructor|].
    intros l [= <-]. split; [done|].
    by rewrite lookup_total_app_r, Nat.sub_diag.
Qed.

Lemma resolveProperty_items (prop1 prop' : Property) (h1 h' : heap)
    (err : option error) :
  match pItems prop1 with
  | Some i =>
      if decide (Ref (h1 !!! i) ≠ "") then
        match resolveRef spec (Ref (h1 !!! i)) h1 with
        | (h2, Err e) => (h2, (prop1, Some e))
        | (h2, Ok l) => (h2, (withItems (Some l) prop1, None))
        end
      else (h1, (prop1, None))
  | None => (h1, (prop1, None))
  end = (h', (prop', err)) →
  grows h1 h'
  ∧ (err = None → ∀ i, pItems prop' = Some i → Ref (h' !!! i) = "").
Proof.
  intros H. destruct (pItems prop1) as [i|] eqn:Hi.
  - destruct (decide (Ref (h1 !!! i) ≠ "")) as [Hne|Hre].
    + destruct (resolveRef spec (Ref (h1 !!! i)) h1) as [h2 [l|e]] eqn:Href;
        apply resolveRef_grows in Href as [Hg2 Hl]; simplify_eq.
      * split; [done|]. intros _ j [= <-]. by destruct (Hl l).
      * done.
    + simplify_eq. split; [apply grows_refl|]. intros _ j Hj.
      rewrite Hi in Hj. simplify_eq. by apply dec_stable.
  - simplify_eq. split; [apply grows_refl|]. intros _ j Hj. congruence.
Qed.

Lemma resolveProperty_grows (prop prop' : Property) (h h' : heap)
    (err : option error) :
  resolveProperty spec prop h = (h', (prop', err)) →
  grows h h'
  ∧ (err = None → ∀ i, pItems prop' = Some i → Ref (h' !!! i) = "").
Proof.
  unfold resolveProperty. intros H.
  destruct (decide (pRef prop ≠ "")).
  - destruct (resolveRef spec (pRef prop) h) as [h1 [l|e]] eqn:Href;
      apply resolveRef_grows in Href as [Hg _].
    + apply resolveProperty_items in H as [Hg' Hres].
      split; [by eapply grows_trans|done].
    + by simplify_eq.
  - by apply resolveProperty_items in H.
Qed.

Lemma resolveProperties_grows (entries : list (string * Property))
    (acc : gmap string Property) (h h' : heap) (r : res (gmap string Property)) :
  resolveProperties spec entries acc h = (h', r) →
  grows h h' ∧ ∀ m, r = Ok m → itemsResolved h acc → itemsResolved h' m.
Proof.
  revert acc h. induction entries as [|[key prop] entries IH]; intros acc h H.
  { simpl in H. simplify_eq. split; [apply grows_refl|]. by intros m [= <-]. }
  simpl in H.
  destruct (resolveProperty spec prop h) as [h1 [prop' [e|]]] eqn:Hprop;
    apply resolveProperty_grows in Hprop as [Hg1 Hres].
  - simplify_eq. done.
  - apply IH in H as [Hg2 Hm]. split; [by eapply grows_trans|].
    intros m Hr Hacc. apply Hm; [done|].
    intros k p i Hk Hi. destruct (decide (k = key)) as [->|Hne].
    + rewrite lookup_insert_eq in Hk. simplify_eq. by apply Hres.
    + rewrite lookup_insert_ne in Hk by done.
      eapply itemsResolved_evolves; [by apply grows_evolves|done..].
Qed.

(** The block on properties: new cells, and at most one write, to the
    properties of the schema itself. *)
Lemma resolveAllProperties_effect (l : loc) (h h1 : heap) (err : option error) :
  resolveAllProperties range spec l h = (h1, err) →
  evolves h h1
  ∧ (∀ x, x ≠ l → (x < length h)%nat → h1 !! x = h !! x)
  ∧ (∀ y, (length h ≤ y)%nat → Items (h1 !!! y) = None)
  ∧ (∀ y, (y < length h)%nat → Items (h1 !!! y) = Items (h !!! y))
  ∧ (∀ x, (x < length h)%nat → itemsResolved h (Properties (h !!! x)) →
          itemsResolved h1 (Properties (h1 !!! x)))
  ∧ (err = None → itemsResolved h1 (Properties (h1 !!! l))).
Proof.
  unfold resolveAllProperties. intros H.
  destruct (decide (0 < size (Properties (h !!! l)))) as [Hsz|Hsz].
  - assert (l < length h)%nat as Hl.
    { destruct (decide (l < length h)%nat); [done|].
      rewrite zero_beyond in Hsz by lia. simpl in Hsz.
      rewrite map_size_empty in Hsz. lia. }
    destruct (resolveProperties spec _ ∅ h) as [h0 [m|e]] eqn:Hprops;
      apply resolveProperties_grows in Hprops as [Hg Hm]; simplify_eq.
    + assert (itemsResolved h0 m) as Hm0 by by apply Hm.
      assert (evolves h0 (<[l:=setProperties m (h0 !!! l)]> h0)) as He
        by apply evolves_setProperties.
      assert (l < length h0)%nat as Hl0.
      { apply grows_evolves in Hg as [? _]. lia. }
      split; [eapply evolves_trans; [by apply grows_evolves|done]|].
      split.
      { intros x Hx Hlt. rewrite list_lookup_insert_ne by done.
        by apply grows_lookup. }
      split.
      { intros y Hy. rewrite list_lookup_total_insert_ne by lia.
        by apply (grows_fresh h h0). }
      split.
      { intros y Hy. rewrite list_lookup_total_insert.
        case_decide as Hc; [destruct Hc as [-> _]; simpl|];
          by rewrite (grows_lookup_total _ _ _ Hg). }
      split.
      { intros x Hx Hres. rewrite list_lookup_total_insert.
        case_decide as Hc; simpl.
        - by eapply itemsResolved_evolves.
        - rewrite (grows_lookup_total _ _ _ Hg Hx).
          eapply itemsResolved_evolves; [|done].
          eapply evolves_trans; [by apply grows_evolves|done]. }
      intros _. rewrite list_lookup_total_insert_eq by done. simpl.
      by eapply itemsResolved_evolves.
    + split; [by apply grows_evolves|].
      split; [intros; by apply grows_lookup|].
      split; [intros; by apply (grows_fresh h h1)|].
      split; [intros; by rewrite (grows_lookup_total _ _ _ Hg)|].
      split; [|done]. intros x Hx Hres.
      rewrite (grows_lookup_total _ _ _ Hg Hx).
      eapply itemsResolved_evolves; [by apply grows_evolves|done].
  - simplify_eq. split; [apply evolves_refl|].
    split; [done|]. split; [intros; by rewrite zero_beyond|].
    split; [done|]. split; [done|]. intros _.
    assert (Properties (h1 !!! l) = ∅) as ->.
    { apply map_size_empty_inv. lia. }
    intros key prop i Hkey. by rewrite lookup_empty in Hkey.
Qed.
Lemma Ref_setItems (h : heap) (l x : loc) (i : option loc) :
  Ref (<[l := setItems i (h !!! l)]> h !!! x) = Ref (h !!! x).
Proof.
  rewrite list_lookup_total_insert. by case_decide as Hx; [destruct Hx as [-> _]|].
Qed.

Lemma itemsResolved_refs (h h' : heap) (m : gmap string Property) :
  (∀ x, Ref (h' !!! x) = Ref (h !!! x)) → itemsResolved h m → itemsResolved h' m.
Proof. intros He Hm key prop i Hkey Hi. rewrite He. by eapply Hm. Qed.

Lemma evolves_then_setItems (h h2 : heap) (l : loc) (i : option loc) :
  evolves h h2 → Items (h !!! l) ≠ None →
  evolves h (<[l := setItems i (h2 !!! l)]> h2).
Proof.
  intros [Hlen He] Hl. split; [by rewrite length_insert|]. intros x.
  destruct (He x) as (Hr & Hi & Hk). rewrite list_lookup_total_insert.
  case_decide as Hx; [destruct Hx as [-> _]; simpl|]; done.
Qed.

(** The chain that starts at the element type just assigned to [l]. *)
Lemma chain_after_write (h : heap) (l x : loc) (resolved : option loc) :
  onItemsChain (<[l := setItems resolved (h !!! l)]> h) resolved x →
  x = l ∨ onItemsChain h resolved x.
Proof.
  remember (<[l := setItems resolved (h !!! l)]> h) as h3 eqn:Hh3.
  intros Hc. revert Hh3.
  induction Hc as [l'|p y z Hc IH Hstep]; intros ->; [right; apply chain_here|].
  rewrite list_lookup_total_insert in Hstep.
  case_decide as Hy.
  - destruct Hy as [-> _]. simpl in Hstep. subst p. right. apply chain_here.
  - destruct (IH eq_refl) as [->|IH'].
    + destruct (decide (l < length h)%nat); [by destruct Hy|].
      rewrite zero_beyond in Hstep by lia. done.
    + right. by eapply chain_next.
Qed.

Lemma ResolveSchema_effect (n : nat) (p : option loc) (h h' : heap)
    (r : res (option loc)) :
  ResolveSchema range spec n p h = Some (h', r) →
  evolves h h'
  ∧ (∀ x, (x < length h)%nat → ¬ onItemsChain h p x → h' !! x = h !! x)
  ∧ (∀ x, (x < length h)%nat → itemsResolved h (Properties (h !!! x)) →
          itemsResolved h' (Properties (h' !!! x)))
  ∧ (∀ r', r = Ok r' → ∀ x, onItemsChain h' r' x → Ref (h' !!! x) = "")
  ∧ (∀ l r', p = Some l → Ref (h !!! l) = "" → r = Ok r' →
       r' = Some l ∧ itemsResolved h' (Properties (h' !!! l))).
Proof.
  revert p h h' r. induction n as [|n IH]; intros p h h' r H; [done|].
  simpl in H. destruct p as [l|].
  2:{ simplify_eq. split; [apply evolves_refl|]. split; [done|]. split; [done|].
      split; [|done]. intros r' [= <-] x Hc. by apply chain_None in Hc. }
  destruct (decide (Ref (h !!! l) ≠ "")) as [Href|Href].
  - (* a reference: one new cell, or an error *)
    destruct (resolveRef spec (Ref (h !!! l)) h) as [h1 [l'|e]] eqn:Hres;
      apply resolveRef_grows in Hres as [Hg Hl']; simplify_eq.
    + destruct (Hl' l' eq_refl) as [-> Hnew].
      split; [by apply grows_evolves|].
      split; [intros; by apply grows_lookup|].
      split.
      { intros x Hx Hm. rewrite (grows_lookup_total _ _ _ Hg Hx).
        eapply itemsResolved_evolves; [by apply grows_evolves|done]. }
      split; [|by intros l0 r' [= <-] ?].
      intros r' [= <-] x [->|Hc]%chain_head; [done|].
      destruct (grows_fresh h h' (length h) Hg) as [_ Hi]; [done|].
      rewrite Hi in Hc. by apply chain_None in Hc.
    + split; [by apply grows_evolves|].
      split; [intros; by apply grows_lookup|].
      split; [|done].
      intros x Hx Hm. rewrite (grows_lookup_total _ _ _ Hg Hx).
      eapply itemsResolved_evolves; [by apply grows_evolves|done].
  - (* a schema written out: its properties, then its element type *)
    apply dec_stable in Href.
    destruct (resolveAllProperties range spec l h) as [h1 err] eqn:Hblock.
    apply resolveAllProperties_effect in Hblock
      as (He1 & Hframe1 & Hnew1 & Hitems1 & Hkeep1 & Hprops1).
    destruct err as [e|].
    { simplify_eq. split; [done|]. split; [|done].
      intros x Hx Hc. apply Hframe1; [|done]. intros ->. apply Hc, chain_here. }
    specialize (Hprops1 eq_refl).
    destruct (Items (h1 !!! l)) as [i|] eqn:Hi.
    2:{ simplify_eq. split; [done|]. split.
        { intros x Hx Hc. apply Hframe1; [|done]. intros ->. apply Hc, chain_here. }
        split; [done|]. split.
        - intros r' [= <-] x [->|Hc]%chain_head.
          + destruct He1 as [_ He1]. destruct (He1 l) as [-> _]. done.
          + rewrite Hi in Hc. by apply chain_None in Hc.
        - by intros l0 r' [= <-] _ [= <-]. }
    assert (l < length h)%nat as Hl.
    { destruct (decide (l < length h)%nat); [done|].
      rewrite Hnew1 in Hi by lia. done. }
    assert (Items (h !!! l) = Some i) as Hi0 by by rewrite <- Hitems1.
    assert (∀ y z, Items (h1 !!! y) = Some z → Items (h !!! y) = Some z) as Hwithin.
    { intros y z Hy. destruct (decide (y < length h)%nat).
      - by rewrite <- Hitems1.
      - rewrite Hnew1 in Hy by lia. done. }
    destruct (ResolveSchema range spec n (Some i) h1) as [[h2 [resolved|e]]|] eqn:Hrec;
      [| |done]; simplify_eq;
      apply IH in Hrec as (He2 & Hframe2 & Hkeep2 & Hchain2 & _).
    + (* the assignment to [schema.Items] *)
      assert (length h ≤ length h1)%nat as Hlen1 by apply He1.
      assert (length h1 ≤ length h2)%nat as Hlen2 by apply He2.
      assert (evolves h h2) as He by by eapply evolves_trans.
      assert (itemsResolved h2 (Properties (h2 !!! l))) as Hprops2.
      { apply Hkeep2; [lia|done]. }
      split; [apply evolves_then_setItems; [done|congruence]|].
      split.
      { intros x Hx Hc. assert (x ≠ l) by (intros ->; apply Hc, chain_here).
        rewrite list_lookup_insert_ne by done.
        rewrite Hframe2, Hframe1; [done..|lia|].
        intros Hc1. apply Hc, chain_cons. rewrite Hi0.
        by eapply chain_within. }
      split.
      { intros x Hx Hm. apply (itemsResolved_refs h2); [intros ?; apply Ref_setItems|].
        rewrite list_lookup_total_insert. case_decide as Hxl.
        - destruct Hxl as [-> _]. done.
        - apply Hkeep2; [lia|]. by apply Hkeep1. }
      split.
      { intros r' [= <-] x Hc. rewrite Ref_setItems.
        apply chain_head in Hc as [->|Hc].
        - destruct He as [_ He]. destruct (He l) as [-> _]. done.
        - rewrite list_lookup_total_insert_eq in Hc by lia. simpl in Hc.
          apply chain_after_write in Hc as [->|Hc].
          + destruct He as [_ He]. destruct (He l) as [-> _]. done.
          + by eapply Hchain2. }
      intros l0 r' [= <-] _ [= <-]. split; [done|].
      apply (itemsResolved_refs h2); [intros ?; apply Ref_setItems|].
      by rewrite list_lookup_total_insert_eq by lia.
    + split; [by eapply evolves_trans|]. split.
      { intros x Hx Hc. assert (x ≠ l) by (intros ->; apply Hc, chain_here).
        assert (length h ≤ length h1)%nat as Hlen1 by apply He1.
        rewrite Hframe2, Hframe1; [done..|lia|].
        intros Hc1. apply Hc, chain_cons. rewrite Hi0.
        by eapply chain_within. }
      split; [|done].
      intros x Hx Hm. assert (length h ≤ length h1)%nat as Hlen1 by apply He1.
      apply Hkeep2; [lia|]. by apply Hkeep1.
Qed.
End StoreLaws.

(** *** More calls allowed, same outcome *)

Section ResolveLaws.
Variable range : gmap string Property → list (string * Property).
Variable spec : Spec.

Lemma ResolveSchema_inline (n : nat) (l : loc) (h : heap) :
  Ref (h !!! l) = "" →
  ResolveSchema range spec (S n) (Some l) h
  = match resolveAllProperties range spec l h with
    | (h1, Some e) => Some (h1, Err e)
    | (h1, None) =>
        match Items (h1 !!! l) with
        | Some i =>
            match ResolveSchema range spec n (Some i) h1 with
            | None => None
            | Some (h2, Err e) => Some (h2, Err (ErrItems e))
            | Some (h2, Ok resolved) =>
                Some (<[l := setItems resolved (h2 !!! l)]> h2, Ok (Some l))
            end
        | None => Some (h1, Ok (Some l))
        end
    end.
Proof.
  intros Href. cbn [ResolveSchema].
  by destruct (decide (Ref (h !!! l) ≠ "")).
Qed.

Lemma ResolveSchema_below (n : nat) (p : option loc) (h : heap)
    (a : heap * res (option loc)) :
  ResolveSchema range spec n p h = Some a →
  ResolveSchema range spec (S n) p h = Some a.
Proof.
  revert p h a. induction n as [|n IH]; intros p h a H; [done|].
  destruct p as [l|]; [|done].
  destruct (decide (Ref (h !!! l) ≠ "")) as [Href|Href].
  { by rewrite ResolveSchema_ref in H |- *. }
  apply dec_stable in Href. rewrite ResolveSchema_inline in H |- * by done.
  destruct (resolveAllProperties range spec l h) as [h1 [e|]]; [done|].
  destruct (Items (h1 !!! l)) as [i|]; [|done].
  destruct (ResolveSchema range spec n (Some i) h1) as [a'|] eqn:Hrec; [|done].
  by rewrite (IH _ _ _ Hrec).
Qed.

Lemma ResolveSchema_more (n k : nat) (p : option loc) (h : heap)
    (a : heap * res (option loc)) :
  ResolveSchema range spec n p h = Some a →
  ResolveSchema range spec (n + k) p h = Some a.
Proof.
  intros H. induction k as [|k IH]; [by rewrite Nat.add_0_r|].
  rewrite Nat.add_succ_r. by apply ResolveSchema_below.
Qed.

Lemma ResolveSchema_agree (n m : nat) (p : option loc) (h : heap)
    (a b : heap * res (option loc)) :
  ResolveSchema range spec n p h = Some a →
  ResolveSchema range spec m p h = Some b → a = b.
Proof.
  intros Ha Hb. apply (ResolveSchema_more _ m) in Ha.
  apply (ResolveSchema_more _ n) in Hb. rewrite (Nat.add_comm m n) in Hb.
  congruence.
Qed.

(** *** The call returns when the chain of element types ends *)

Lemma chainEnds_same (h h1 : heap) (k : nat) (p : option loc) :
  (∀ y, Ref (h1 !!! y) = Ref (h !!! y)) →
  (∀ y, Items (h1 !!! y) = Items (h !!! y)) →
  chainEnds h k p → chainEnds h1 k p.
Proof.
  intros Hr Hi Hc. induction Hc as [k|k l Hl|k l Hl Hc IH].
  - apply ends_nil.
  - apply ends_ref. by rewrite Hr.
  - apply ends_next; [by rewrite Hr|by rewrite Hi].
Qed.

Lemma ResolveSchema_returns (k : nat) (p : option loc) (h : heap) :
  chainEnds h k p → is_Some (ResolveSchema range spec (S k) p h).
Proof.
  revert p h. induction k as [|k IH]; intros p h Hc;
    inversion Hc as [k'|k' l Hl|k' l Hl Hc']; subst;
    try done; try (rewrite ResolveSchema_ref by done; done).
  rewrite ResolveSchema_inline by done.
  destruct (resolveAllProperties range spec l h) as [h1 [e|]] eqn:Hblock; [done|].
  apply resolveAllProperties_effect in Hblock
    as ([_ He1] & _ & Hnew1 & Hitems1 & _).
  assert (∀ y, Items (h1 !!! y) = Items (h !!! y)) as Hsame.
  { intros y. destruct (decide (y < length h)%nat); [by apply Hitems1|].
    rewrite Hnew1 by lia. by rewrite zero_beyond by lia. }
  destruct (Items (h1 !!! l)) as [i|] eqn:Hi; [|done].
  rewrite Hsame in Hi. rewrite Hi in Hc'.
  destruct (IH (Some i) h1) as [[h2 [resolved|e]] ->]; [|done..].
  apply (chainEnds_same h); [|done..]. intros y. by destruct (He1 y).
Qed.

Lemma ResolveSchema_no_walk (n : nat) (p : option loc) (h h' : heap)
    (r : res (option loc)) :
  p = None ∨ (∃ l, p = Some l ∧ Ref (h !!! l) ≠ "") →
  ResolveSchema range spec n p h = Some (h', r) → grows h h'.
Proof.
  destruct n as [|n]; [done|].
  intros [->|(l & -> & Href)] H.
  - simpl in H. simplify_eq. apply grows_refl.
  - rewrite ResolveSchema_ref in H by done.
    destruct (resolveRef spec (Ref (h !!! l)) h) as [h1 [l'|e]] eqn:Hres;
      apply resolveRef_grows in Hres as [Hg _]; by simplify_eq.
Qed.

(** C1, as the code has it.  When [ResolveSchema] succeeds, the schema it
    returns is no reference, and neither is any schema reached from it
    through [Items]; and when the schema passed in was itself no reference,
    the one returned is the same cell, and no property of it has a reference
    as its element type.  (A property that is a reference stays one.) *)
Theorem resolved_positions (n : nat) (p : option loc) (h h' : heap)
    (resolved : option loc) :
  ResolveSchema range spec n p h = Some (h', Ok resolved) →
  (∀ x, onItemsChain h' resolved x → Ref (h' !!! x) = "")
  ∧ (∀ l, p = Some l → Ref (h !!! l) = "" →
       resolved = Some l ∧ itemsResolved h' (Properties (h' !!! l))).
Proof.
  intros (_ & _ & _ & Hchain & Hsame)%ResolveSchema_effect.
  split; [by apply Hchain|]. intros l -> Href. by apply Hsame.
Qed.

(** C2, as the code has it.  With the tables of
    [TestResolver_ResolveNestedSchema], resolving a reference to [User]
    gives a new object with exactly two fields, [name] and [address];
    [name] is of kind string, and [address] is still the reference to
    [Address], not expanded.  Resolving that reference in turn gives the
    object with the two fields [street] and [city]. *)
Theorem nested_user (n : nat) (l : loc) (h : heap) :
  Ref (h !!! l) = "#/components/schemas/User" →
  ∃ s pname paddress,
    ResolveSchema range nestedSpec (S n) (Some l) h
    = Some ((h ++ [s])%list, Ok (Some (length h)))
    ∧ Type_ s = "object" ∧ size (Properties s) = 2%nat
    ∧ Properties s !! "name" = Some pname ∧ pType pname = "string"
    ∧ Properties s !! "address" = Some paddress
    ∧ pRef paddress = "#/components/schemas/Address"
    ∧ ∀ h2, ∃ a,
        resolveRef nestedSpec "#/components/schemas/Address" h2
        = ((h2 ++ [a])%list, Ok (length h2))
        ∧ Type_ a = "object"
        ∧ Properties a = {[ "street" := typed "string"; "city" := typed "string" ]}.
Proof.
  intros Hl. eexists _, _, _. split.
  { eapply ResolveSchema_refersTo; [|exact Hl]. right.
    eexists "User", _. split; [reflexivity|]. split; reflexivity. }
  split; [reflexivity|]. split; [vm_compute; reflexivity|].
  split; [vm_compute; reflexivity|]. split; [reflexivity|].
  split; [vm_compute; reflexivity|]. split; [reflexivity|].
  intros h2. eexists. split.
  { eapply resolveRef_refersTo. right.
    eexists "Address", _. split; [reflexivity|]. split; reflexivity. }
  split; vm_compute; reflexivity.
Qed.
End ResolveLaws.

(** * The laws at the inputs of the tests, and where the code departs *)

Lemma map_to_list_range (m : gmap string Property) : map_to_list m ≡ₚ map_to_list m.
Proof. reflexivity. Qed.

(** C1: a property that is a reference is still one after [ResolveSchema];
    only its kind has been filled in. *)
Lemma resolved_property_is_reference :
  ∃ h' s p,
    ResolveSchema map_to_list userSpec 2 (Some 0%nat) [ownerSchema]
    = Some (h', Ok (Some 0%nat))
    ∧ h' !! 0%nat = Some s
    ∧ Properties s !! "owner" = Some p
    ∧ pRef p = "#/definitions/User" ∧ pRef p ≠ "" ∧ pType p = "object".
Proof.
  eexists _, _, _. split; [vm_compute; reflexivity|].
  split; [reflexivity|]. split; [vm_compute; reflexivity|].
  split; [reflexivity|]. split; [discriminate|reflexivity].
Qed.

Lemma resolved_positions_witness :
  ∃ h',
    ResolveSchema map_to_list userSpec 3 (Some 0%nat) usersHeap
    = Some (h', Ok (Some 0%nat))
    ∧ (∀ x, onItemsChain h' (Some 0%nat) x → Ref (h' !!! x) = "")
    ∧ itemsResolved h' (Properties (h' !!! 0%nat)).
Proof.
  eexists. split; [vm_compute; reflexivity|].
  destruct (resolved_positions map_to_list userSpec 3 (Some 0%nat) usersHeap _ _
              eq_refl) as [Hchain Hsame].
  split; [exact Hchain|]. by destruct (Hsame 0%nat eq_refl eq_refl).
Defined.

(** C2: the [address] of the resolved [User] is the reference of the table,
    not an object with the fields of [Address]. *)
Lemma nested_address_is_reference :
  ∃ h' l' s p,
    ResolveSchema map_to_list nestedSpec 2 (Some 0%nat)
      [refSchema "#/components/schemas/User"]
    = Some (h', Ok (Some l'))
    ∧ h' !! l' = Some s
    ∧ size (Properties s) = 2%nat
    ∧ Properties s !! "address" = Some p
    ∧ p = refTo "#/components/schemas/Address"
    ∧ pRef p ≠ "" ∧ pType p ≠ "object" ∧ pItems p = None.
Proof.
  eexists _, _, _, _. split; [vm_compute; reflexivity|].
  split; [reflexivity|]. split; [vm_compute; reflexivity|].
  split; [vm_compute; reflexivity|]. split; [reflexivity|].
  split; [discriminate|]. split; [discriminate|reflexivity].
Qed.

Lemma nested_user_witness :
  ∃ s paddress,
    ResolveSchema map_to_list nestedSpec 1 (Some 0%nat)
      [refSchema "#/components/schemas/User"]
    = Some ([refSchema "#/components/schemas/User"; s], Ok (Some 1%nat))
    ∧ size (Properties s) = 2%nat
    ∧ Properties s !! "address" = Some paddress
    ∧ pRef paddress = "#/components/schemas/Address".
Proof.
  destruct (nested_user map_to_list 0 0 [refSchema "#/components/schemas/User"]
              eq_refl) as (s & pname & paddress & Hres & _ & Hsize & _ & _ & Ha & Hr & _).
  by exists s, paddress.
Defined.

(** C3: resolving an array whose element type is a reference writes to the
    array: its [Items] is another pointer afterwards. *)
Lemma input_schema_rewritten :
  ∃ h' s s',
    ResolveSchema map_to_list userSpec 3 (Some 0%nat) usersHeap
    = Some (h', Ok (Some 0%nat))
    ∧ usersHeap !! 0%nat = Some s ∧ h' !! 0%nat = Some s'
    ∧ Items s = Some 1%nat ∧ Items s' = Some 2%nat ∧ s' ≠ s.
Proof.
  eexists _, _, _. split; [vm_compute; reflexivity|].
  split; [reflexivity|]. split; [reflexivity|].
  split; [reflexivity|]. split; [reflexivity|]. discriminate.
Qed.


(** C4: the definition [User] is in the table and the reference resolves,
    yet the property gets the text [<User>], not the example of the
    definition. *)
Lemma placeholder_without_resolution :
  (∃ h' l, resolveRef userSpec "#/definitions/User" [] = (h', Ok l))
  ∧ buildPropertyExample id (buildExample map_to_list id 12 []) "owner"
      (refTo "#/definitions/User") 1
    = Some (VString "<User>")
  ∧ spec_referenceExample map_to_list id userSpec 12 []
      (refTo "#/definitions/User") 1
    = Some (VObject {[ "id" := VInt 0; "name" := VString "Sample name" ]})
  ∧ buildPropertyExample id (buildExample map_to_list id 12 []) "owner"
      (refTo "#/definitions/User") 1
    ≠ spec_referenceExample map_to_list id userSpec 12 []
        (refTo "#/definitions/User") 1.
Proof.
  split; [by eexists _, _|]. split; [reflexivity|].
  split; [vm_compute; reflexivity|]. vm_compute. discriminate.
Qed.

Lemma reference_placeholder_witness :
  buildPropertyExample id (buildExample map_to_list id 12 []) "owner"
    (refTo "#/definitions/Missing") 1
  = Some (VString "<Missing>").
Proof.
  apply (reference_placeholder id (buildExample map_to_list id 12 []) "owner"
           (refTo "#/definitions/Missing") 1); [reflexivity|discriminate].
Defined.

Lemma buildExample_total_witness :
  ∃ v, (∀ k, buildExample map_to_list id (fuelFor 11 + k) loopHeap (Some 0%nat) 11
             = Some v)
       ∧ v = VNull.
Proof.
  destruct (buildExample_total map_to_list id loopHeap (Some 0%nat) 11)
    as (v & Hv & Hnull).
  exists v. split; [exact Hv|]. apply Hnull. lia.
Defined.

(** A store that loops is no obstacle: below the depth bound the example is
    built, one list inside the other, down to the [nil] of depth 11. *)
Example loop_example :
  buildExample map_to_list id (fuelFor 9) loopHeap (Some 0%nat) 9
  = Some (VList [VList [VNull]]).
Proof. reflexivity. Qed.

Lemma resolve_reference_shape_witness :
  ∃ h' l' s,
    ResolveSchema map_to_list userSpec 1 (Some 0%nat) [refSchema "#/definitions/User"]
    = Some (h', Ok (Some l'))
    ∧ h' !! l' = Some s ∧ Type_ s = "object" ∧ size (Properties s) = 2%nat.
Proof.
  destruct (resolve_reference_shape map_to_list userSpec "#/definitions/User"
              userDefinition 0 0 [refSchema "#/definitions/User"])
    as (h' & l' & s & Hres & Hs & Hty & Hprops & _).
  - left. exists "User". split; reflexivity.
  - reflexivity.
  - exists h', l', s. rewrite Hty, Hprops.
    split; [exact Hres|]. split; [exact Hs|]. split; vm_compute; reflexivity.
Defined.

Lemma unsupported_reference_format_witness :
  ResolveSchema map_to_list userSpec 1 (Some 0%nat) [refSchema "User"]
  = Some ([refSchema "User"], Err (ErrUnsupportedRef "User")).
Proof.
  destruct (unsupported_reference_format map_to_list userSpec "User"
              [refSchema "User"]) as (_ & _ & H); [reflexivity..|].
  apply H; [reflexivity|discriminate].
Defined.

Lemma resolve_then_example_witness :
  ∃ h' resolved,
    ResolveSchema map_to_list userSpec 1 (Some 0%nat) [refSchema "#/definitions/User"]
    = Some (h', Ok resolved)
    ∧ buildExample map_to_list id (fuelFor 0 + 0) h' resolved 0
      = Some (VObject {[ "id" := VInt 0; "name" := VString "Sample name" ]}).
Proof.
  apply (resolve_then_example map_to_list map_to_list_range id userSpec
           "#/definitions/User" userDefinition (typed "integer") (typed "string")
           [refSchema "#/definitions/User"] 0 0 0);
    try reflexivity; try discriminate.
  left. exists "User". split; reflexivity.
Defined.

Lemma string_literals_witness :
  buildPropertyExample id (buildExample map_to_list id 12 []) "userEmail"
    (typed "string") 1
  = Some (VString "user@example.com").
Proof.
  destruct (string_literals map_to_list id) as (Hprop & _ & _ & _ & Hemail & _).
  rewrite Hprop by reflexivity. rewrite Hemail by reflexivity. reflexivity.
Defined.

Lemma array_example_length_witness :
  ∃ items,
    buildExample map_to_list id 12 arrayTestHeap (Some 0%nat) 0 = Some (VList items)
    ∧ length items = 1%nat.
Proof.
  destruct (array_example_length map_to_list id 12 arrayTestHeap 0 0)
    as (items & Hres & Hitems); [reflexivity|lia|vm_compute; lia|].
  assert (Items (arrayTestHeap !!! 0%nat) = Some 1%nat) as Hi by reflexivity.
  rewrite Hi in Hitems. destruct Hitems as (v & Hv & _).
  exists items. split; [exact Hres|]. by rewrite Hv.
Defined.

(** * Further properties: names, failures, fixed points, fields *)

(** * Further properties *)

(** ** Names of references *)

Lemma Contains_byte_cons (c d : ascii) (s : string) :
  Contains (String c s) (String d "") = bool_decide (d = c) || Contains s (String d "").
Proof.
  simpl. destruct (decide (d = c)) as [->|Hne].
  - by rewrite bool_decide_eq_true_2.
  - by rewrite bool_decide_eq_false_2.
Qed.

Lemma Contains_byte_app (a b : string) (d : ascii) :
  Contains (a +:+ b) (String d "") = Contains a (String d "") || Contains b (String d "").
Proof.
  induction a as [|c a IH].
  - simpl. by destruct b.
  - change (String c a +:+ b) with (String c (a +:+ b)).
    rewrite !Contains_byte_cons, IH. by rewrite orb_assoc.
Qed.

Lemma Split_nonempty (s : string) (sep : ascii) : Split s sep ≠ [].
Proof.
  destruct s as [|c s]; simpl; [done|].
  destruct (decide (c = sep)); [done|]. by destruct (Split s sep).
Qed.

Lemma Split_without (s : string) (sep : ascii) :
  Contains s (String sep "") = false → Split s sep = [s].
Proof.
  induction s as [|c s IH]; [done|].
  rewrite Contains_byte_cons. intros [Hc Hs]%orb_false_iff.
  apply bool_decide_eq_false in Hc. simpl.
  destruct (decide (c = sep)); [congruence|]. by rewrite (IH Hs).
Qed.

Lemma Split_app (a b : string) (sep : ascii) :
  Split (a +:+ String sep b) sep = (Split a sep ++ Split b sep)%list.
Proof.
  induction a as [|c a IH].
  - simpl. by destruct (decide (sep = sep)).
  - change (String c a +:+ String sep b) with (String c (a +:+ String sep b)).
    simpl. destruct (decide (c = sep)); [by rewrite IH|].
    rewrite IH. pose proof (Split_nonempty a sep).
    by destruct (Split a sep).
Qed.

Lemma Split_pieces (s : string) (sep : ascii) :
  Forall (λ piece, Contains piece (String sep "") = false) (Split s sep).
Proof.
  induction s as [|c s IH]; simpl; [by repeat constructor|].
  destruct (decide (c = sep)) as [->|Hne]; [by constructor|].
  pose proof (Split_nonempty s sep).
  destruct (Split s sep) as [|piece pieces]; [done|].
  apply Forall_cons in IH as [Hpiece Hpieces]. constructor; [|done].
  rewrite Contains_byte_cons, Hpiece. by rewrite bool_decide_eq_false_2.
Qed.

Lemma ExtractRefName_last (ref : string) :
  last (Split ref "/") = Some (ExtractRefName ref).
Proof.
  unfold ExtractRefName. pose proof (Split_nonempty ref "/") as Hne.
  destruct (last (Split ref "/")) as [name|] eqn:Hlast.
  - simpl. case_decide as Hl; [done|].
    destruct (Split ref "/"); [done|simpl in Hl; lia].
  - apply last_None in Hlast. done.
Qed.

Lemma ExtractRefName_segment (a name : string) :
  Contains name "/" = false → ExtractRefName (a +:+ "/" +:+ name) = name.
Proof.
  intros Hname. pose proof (ExtractRefName_last (a +:+ "/" +:+ name)) as H.
  change (a +:+ "/" +:+ name) with (a +:+ String "/" name) in H at 1.
  rewrite Split_app, (Split_without name) in H by done.
  rewrite last_snoc in H. congruence.
Qed.

(** X1.  [ExtractRefName] gives the part of a reference after its last
    [/]: the result never has a [/] in it; a reference without [/] is its
    own name; and whatever comes before a [/] is dropped when no [/]
    follows. *)
Theorem ExtractRefName_last_segment :
  (∀ ref, Contains (ExtractRefName ref) "/" = false)
  ∧ (∀ ref, Contains ref "/" = false → ExtractRefName ref = ref)
  ∧ (∀ a name, Contains name "/" = false →
       ExtractRefName (a +:+ "/" +:+ name) = name).
Proof.
  split; [|split].
  - intros ref. pose proof (ExtractRefName_last ref) as Hlast.
    apply last_Some in Hlast as [pieces Hpieces].
    pose proof (Split_pieces ref "/") as Hall. rewrite Hpieces in Hall.
    apply Forall_app in Hall as [_ Hall]. by apply Forall_inv in Hall.
  - intros ref Href. pose proof (ExtractRefName_last ref) as Hlast.
    rewrite (Split_without ref) in Hlast by done. simpl in Hlast. congruence.
  - apply ExtractRefName_segment.
Qed.

Lemma ExtractRefName_last_segment_witness :
  ExtractRefName "User" = "User"
  ∧ ExtractRefName "#/definitions/User" = "User"
  ∧ ExtractRefName "#/components/schemas/Pet" = "Pet".
Proof.
  destruct ExtractRefName_last_segment as (_ & Hself & Hseg).
  split; [by apply Hself|].
  split; [apply (Hseg "#/definitions" "User")|apply (Hseg "#/components/schemas" "Pet")];
    reflexivity.
Defined.

(** X2.  The name that is shown for a reference and the name that
    [resolveRef] looks up are the same exactly when the name has no [/] in
    it: for [#/definitions/a/b] the table is asked for [a/b] and the name
    shown is [b]. *)
Theorem shown_name_is_looked_up_name (name : string) :
  TrimPrefix ("#/definitions/" +:+ name) "#/definitions/" = name
  ∧ TrimPrefix ("#/components/schemas/" +:+ name) "#/components/schemas/" = name
  ∧ (ExtractRefName ("#/definitions/" +:+ name) = name
     ↔ Contains name "/" = false)
  ∧ (ExtractRefName ("#/components/schemas/" +:+ name) = name
     ↔ Contains name "/" = false).
Proof.
  split; [apply TrimPrefix_app|]. split; [apply TrimPrefix_app|].
  assert (∀ ref, ExtractRefName ref = name → Contains name "/" = false) as Hno.
  { intros ref <-. pose proof (ExtractRefName_last ref) as Hlast.
    apply last_Some in Hlast as [pieces Hpieces].
    pose proof (Split_pieces ref "/") as Hall. rewrite Hpieces in Hall.
    apply Forall_app in Hall as [_ Hall]. by apply Forall_inv in Hall. }
  split; (split; [apply Hno|]); intros Hname.
  - apply (ExtractRefName_segment "#/definitions" name Hname).
  - apply (ExtractRefName_segment "#/components/schemas" name Hname).
Qed.

(** ** References that resolve, and those that do not *)

Lemma HasPrefix_TrimPrefix (s p : string) :
  HasPrefix s p = true → s = p +:+ TrimPrefix s p.
Proof.
  unfold TrimPrefix. intros H. rewrite H. revert s H.
  induction p as [|c p IH]; intros s H; [by destruct s|].
  destruct s as [|d s]; [done|]. simpl in H.
  destruct (decide (c = d)) as [->|]; [|done].
  change (String d s = String d (p +:+ string_drop (String.length p) s)).
  f_equal. by apply IH.
Qed.

Lemma resolveRef_Ok (spec : Spec) (ref : string) (h h' : heap) (l : loc) :
  resolveRef spec ref h = (h', Ok l) →
  ∃ D, refersTo spec ref D ∧ h' = (h ++ [schemaOf D])%list ∧ l = length h.
Proof.
  unfold resolveRef, new. intros H.
  destruct (HasPrefix ref "#/components/schemas/") eqn:Hc.
  - apply HasPrefix_TrimPrefix in Hc.
    destruct (spComponents spec) as [c|] eqn:Hcomp; [|done].
    destruct (Schemas c !! _) as [D|] eqn:HD; [|done]. simplify_eq.
    exists D. split; [|done]. right. by eexists _, c.
  - destruct (HasPrefix ref "#/definitions/") eqn:Hd; [|done].
    apply HasPrefix_TrimPrefix in Hd.
    destruct (spDefinitions spec !! _) as [D|] eqn:HD; [|done]. simplify_eq.
    exists D. split; [|done]. left. by eexists.
Qed.

Section NotFound.
Variable range : gmap string Property → list (string * Property).
Variable spec : Spec.

(** X3.  A reference of a supported form that names no definition of the
    table its prefix selects fails: [definition not found: <name>] for
    [#/definitions/<name>], [schema not found: <name>] for
    [#/components/schemas/<name>], also when there is no [components] at all.
    The other table is not consulted, the store is left as it is, and
    [ResolveSchema] hands the error on unwrapped. *)
Theorem definition_not_found (name : string) (h : heap) :
  (spDefinitions spec !! name = None →
     resolveRef spec ("#/definitions/" +:+ name) h
     = (h, Err (ErrDefinitionNotFound name))
     ∧ ∀ n l, Ref (h !!! l) = "#/definitions/" +:+ name →
         ResolveSchema range spec (S n) (Some l) h
         = Some (h, Err (ErrDefinitionNotFound name)))
  ∧ ((∀ c, spComponents spec = Some c → Schemas c !! name = None) →
     resolveRef spec ("#/components/schemas/" +:+ name) h
     = (h, Err (ErrSchemaNotFound name))
     ∧ ∀ n l, Ref (h !!! l) = "#/components/schemas/" +:+ name →
         ResolveSchema range spec (S n) (Some l) h
         = Some (h, Err (ErrSchemaNotFound name))).
Proof.
  split.
  - intros Hname.
    assert (resolveRef spec ("#/definitions/" +:+ name) h
            = (h, Err (ErrDefinitionNotFound name))) as Hres.
    { unfold resolveRef.
      replace (HasPrefix ("#/definitions/" +:+ name) "#/components/schemas/")
        with false by reflexivity.
      by rewrite HasPrefix_app, TrimPrefix_app, Hname. }
    split; [done|]. intros n l Hl.
    rewrite ResolveSchema_ref by (rewrite Hl; discriminate).
    by rewrite Hl, Hres.
  - intros Hname.
    assert (resolveRef spec ("#/components/schemas/" +:+ name) h
            = (h, Err (ErrSchemaNotFound name))) as Hres.
    { unfold resolveRef. rewrite HasPrefix_app, TrimPrefix_app.
      destruct (spComponents spec) as [c|] eqn:Hc; [|done].
      by rewrite (Hname c). }
    split; [done|]. intros n l Hl.
    rewrite ResolveSchema_ref by (rewrite Hl; discriminate).
    by rewrite Hl, Hres.
Qed.

(** X4.  [resolveRef] succeeds exactly on the references that name a
    definition of the table their prefix selects; it then adds one cell to
    the store, made of the kind, the fields and the required names of that
    definition, and returns it.  When it fails the store is as before. *)
Theorem resolveRef_succeeds_iff (ref : string) (h : heap) :
  ((∃ h' l, resolveRef spec ref h = (h', Ok l)) ↔ ∃ D, refersTo spec ref D)
  ∧ (∀ h' l, resolveRef spec ref h = (h', Ok l) →
       l = length h
       ∧ ∃ D, refersTo spec ref D
           ∧ h' = (h ++ [mkSchema (dType D) "" "" (dProperties D) (dRequired D) None])%list)
  ∧ (∀ h' e, resolveRef spec ref h = (h', Err e) → h' = h).
Proof.
  split; [split|split].
  - intros (h' & l & (D & HD & _)%resolveRef_Ok). by exists D.
  - intros [D HD]. eexists _, _. by apply resolveRef_refersTo.
  - intros h' l (D & HD & -> & ->)%resolveRef_Ok. split; [done|]. by exists D.
  - intros h' e [[-> _]|(D & _ & [=])]%resolveRef_store. done.
Qed.
End NotFound.

Lemma definition_not_found_witness :
  ResolveSchema map_to_list userSpec 1 (Some 0%nat) [refSchema "#/definitions/Pet"]
  = Some ([refSchema "#/definitions/Pet"], Err (ErrDefinitionNotFound "Pet"))
  ∧ ResolveSchema map_to_list userSpec 1 (Some 0%nat)
      [refSchema "#/components/schemas/User"]
    = Some ([refSchema "#/components/schemas/User"], Err (ErrSchemaNotFound "User")).
Proof.
  split.
  - destruct (definition_not_found map_to_list userSpec "Pet"
                [refSchema "#/definitions/Pet"]) as [Hd _].
    destruct Hd as [_ Hd]; [reflexivity|]. by apply Hd.
  - destruct (definition_not_found map_to_list userSpec "User"
                [refSchema "#/components/schemas/User"]) as [_ Hc].
    destruct Hc as [_ Hc]; [intros c Hsome; vm_compute in Hsome; discriminate|].
    by apply Hc.
Defined.

Lemma resolveRef_succeeds_iff_witness :
  ∃ D, refersTo nestedSpec "#/components/schemas/Address" D ∧ dType D = "object".
Proof.
  destruct (resolveRef_succeeds_iff nestedSpec "#/components/schemas/Address" [])
    as (_ & Hok & _).
  destruct (Hok _ _ eq_refl) as (_ & D & HD & Hh).
  exists D. split; [exact HD|].
  unfold schemaOf in Hh. simpl in Hh. by injection Hh as <- _ _.
Defined.

(** ** What [resolveProperty] keeps *)

Lemma withType_id (p : Property) : withType (pType p) p = p.
Proof. by destruct p. Qed.

Lemma sameBut_refl (p : Property) : sameBut p p.
Proof. exists (pType p), (pItems p). by destruct p. Qed.

Lemma sameBut_trans (p1 p2 p3 : Property) :
  sameBut p1 p2 → sameBut p2 p3 → sameBut p1 p3.
Proof. intros (t & i & ->) (t' & i' & ->). by exists t', i'. Qed.

Lemma sameBut_withType (t : string) (p : Property) : sameBut p (withType t p).
Proof. exists t, (pItems p). by destruct p. Qed.

Lemma sameBut_withItems (i : option loc) (p : Property) : sameBut p (withItems i p).
Proof. exists (pType p), i. by destruct p. Qed.

Section PropertyLaws.
Variable spec : Spec.

Lemma resolveProperty_sameBut (prop prop' : Property) (h h' : heap)
    (err : option error) :
  resolveProperty spec prop h = (h', (prop', err)) → sameBut prop prop'.
Proof.
  unfold resolveProperty. intros H.
  repeat (case_match; simplify_eq);
    eauto using sameBut_refl, sameBut_withType, sameBut_withItems, sameBut_trans.
Qed.

Lemma resolveProperty_plain (prop : Property) (h : heap) :
  plain h prop → resolveProperty spec prop h = (h, (prop, None)).
Proof.
  intros [Href Hitems]. unfold resolveProperty.
  destruct (decide (pRef prop ≠ "")); [done|].
  destruct (pItems prop) as [i|] eqn:Hi; [|done].
  destruct (decide (Ref (h !!! i) ≠ "")) as [Hne|]; [|done].
  by destruct Hne, (Hitems i).
Qed.

Lemma resolveProperty_settles (prop prop' : Property) (h h' : heap) :
  resolveProperty spec prop h = (h', (prop', None)) → settled spec h' prop'.
Proof.
  intros H. split.
  - pose proof (resolveProperty_sameBut _ _ _ _ _ H) as (t & i & Hsame).
    assert (pRef prop' = pRef prop) as -> by (subst prop'; by destruct prop).
    clear t i Hsame. intros Href. unfold resolveProperty in H.
    destruct (decide (pRef prop ≠ "")); [|done].
    destruct (resolveRef spec (pRef prop) h) as [h1 [l|e]] eqn:Hres; [|done].
    apply resolveRef_Ok in Hres as (D & HD & -> & ->).
    exists D. split; [done|].
    rewrite lookup_total_app_r, Nat.sub_diag in H by done. simpl in H.
    repeat (case_match; simplify_eq); by destruct prop.
  - by apply (resolveProperty_grows spec prop prop' h h' None).
Qed.

Lemma resolveProperty_settled (prop : Property) (h : heap) :
  settled spec h prop →
  ∃ h', resolveProperty spec prop h = (h', (prop, None))
        ∧ grows h h' ∧ (pRef prop = "" → h' = h).
Proof.
  intros [Href Hitems].
  destruct (decide (pRef prop = "")) as [Hnone|Hsome].
  { exists h. rewrite resolveProperty_plain by done.
    split; [done|]. split; [apply grows_refl|done]. }
  destruct (Href Hsome) as (D & HD & Hty).
  exists (h ++ [schemaOf D])%list.
  assert (grows h (h ++ [schemaOf D])%list) as Hg
    by (exists [schemaOf D]; by repeat constructor).
  split; [|done]. unfold resolveProperty.
  destruct (decide (pRef prop ≠ "")); [|done].
  rewrite (resolveRef_refersTo _ _ _ _ HD).
  rewrite lookup_total_app_r, Nat.sub_diag by done. simpl.
  rewrite <- Hty, withType_id.
  destruct (pItems prop) as [i|] eqn:Hi; [|done].
  destruct (decide (Ref ((h ++ [schemaOf D])%list !!! i) ≠ "")) as [Hne|]; [|done].
  destruct Hne. apply grows_evolves in Hg as [_ Hg].
  destruct (Hg i) as [-> _]. by apply Hitems.
Qed.

(** X5.  [resolveProperty] gives back the property with its description,
    format, reference, example, bounds, pattern and read-only mark as they
    were: only the kind and the element type can differ.  The kind stays
    when the property is no reference, and is that of the definition when
    it is one and resolves.  A property that mentions no reference comes
    back as it was, with no error and the store untouched. *)
Theorem resolveProperty_keeps (prop prop' : Property) (h h' : heap)
    (err : option error) :
  resolveProperty spec prop h = (h', (prop', err)) →
  (pDescription prop' = pDescription prop ∧ pFormat prop' = pFormat prop
   ∧ pRef prop' = pRef prop ∧ pExample prop' = pExample prop
   ∧ pMinLength prop' = pMinLength prop ∧ pMaxLength prop' = pMaxLength prop
   ∧ pMinimum prop' = pMinimum prop ∧ pMaximum prop' = pMaximum prop
   ∧ pPattern prop' = pPattern prop ∧ pReadOnly prop' = pReadOnly prop)
  ∧ (pRef prop = "" → pType prop' = pType prop)
  ∧ (err = None → pRef prop ≠ "" →
       ∃ D, refersTo spec (pRef prop) D ∧ pType prop' = dType D)
  ∧ (plain h prop → h' = h ∧ prop' = prop ∧ err = None).
Proof.
  intros H. split; [|split; [|split]].
  - apply resolveProperty_sameBut in H as (t & i & ->). by destruct prop.
  - intros Href. unfold resolveProperty in H.
    destruct (decide (pRef prop ≠ "")); [done|].
    repeat (case_match; simplify_eq); done.
  - intros -> Href. pose proof (resolveProperty_settles _ _ _ _ H) as [Hs _].
    assert (pRef prop' = pRef prop) as Hr.
    { apply resolveProperty_sameBut in H as (t & i & ->). by destruct prop. }
    rewrite Hr in Hs. by apply Hs.
  - intros Hplain. rewrite resolveProperty_plain in H by done. by simplify_eq.
Qed.
End PropertyLaws.

Lemma resolveProperty_keeps_witness :
  ∃ h' prop',
    resolveProperty userSpec
      (mkProperty "" "the owner" "" "#/definitions/User" None VNull 0 0 0 0 "" true) []
    = (h', (prop', None))
    ∧ pDescription prop' = "the owner" ∧ pRef prop' = "#/definitions/User"
    ∧ pType prop' = "object".
Proof.
  eexists _, _. split; [reflexivity|].
  destruct (resolveProperty_keeps userSpec
              (mkProperty "" "the owner" "" "#/definitions/User" None VNull 0 0 0 0 "" true)
              _ [] _ _ eq_refl) as ((Hd & _ & Hr & _) & _).
  split; [exact Hd|]. split; [exact Hr|reflexivity].
Defined.

(** ** The fields of a schema through [ResolveSchema] *)

Lemma fieldsKept_refl (m : gmap string Property) : fieldsKept m m.
Proof. intros key. destruct (m !! key); [apply sameBut_refl|done]. Qed.

Lemma fieldsKept_trans (m1 m2 m3 : gmap string Property) :
  fieldsKept m1 m2 → fieldsKept m2 m3 → fieldsKept m1 m3.
Proof.
  intros H1 H2 key. specialize (H1 key). specialize (H2 key).
  destruct (m1 !! key), (m2 !! key), (m3 !! key); try done.
  by eapply sameBut_trans.
Qed.

Section FieldLaws.
Variable range : gmap string Property → list (string * Property).
Hypothesis range_perm : ∀ m, range m ≡ₚ map_to_list m.
Variable spec : Spec.

Lemma range_NoDup (m : gmap string Property) : NoDup (range m).*1.
Proof. rewrite (range_perm m). apply NoDup_fst_map_to_list. Qed.

Lemma range_elem (m : gmap string Property) (key : string) (prop : Property) :
  (key, prop) ∈ range m ↔ m !! key = Some prop.
Proof. rewrite (range_perm m). apply elem_of_map_to_list. Qed.

Lemma range_keys (m : gmap string Property) (key : string) :
  key ∈ (range m).*1 ↔ is_Some (m !! key).
Proof.
  rewrite list_elem_of_fmap. split.
  - intros ([key' prop] & -> & Hel). apply range_elem in Hel. by eexists.
  - intros [prop Hprop]. exists (key, prop). split; [done|]. by apply range_elem.
Qed.

(** What the loop over the properties leaves in the map: for each entry the
    outcome of [resolveProperty] in the store of that moment. *)
Lemma resolveProperties_lookup (entries : list (string * Property))
    (acc m : gmap string Property) (h h' : heap) :
  NoDup entries.*1 →
  resolveProperties spec entries acc h = (h', Ok m) →
  (∀ key, key ∉ entries.*1 → m !! key = acc !! key)
  ∧ (∀ key prop, (key, prop) ∈ entries →
       ∃ hk hk' prop',
         grows h hk ∧ resolveProperty spec prop hk = (hk', (prop', None))
         ∧ grows hk' h' ∧ m !! key = Some prop').
Proof.
  revert acc h. induction entries as [|[k0 p0] entries IH]; intros acc h Hnd H.
  { simpl in H. simplify_eq. split; [done|]. intros ?? []%elem_of_nil. }
  apply NoDup_cons in Hnd as [Hk0 Hnd]. simpl in H.
  destruct (resolveProperty spec p0 h) as [h1 [p0' [e|]]] eqn:Hp0; [done|].
  pose proof (resolveProperty_grows _ _ _ _ _ _ Hp0) as [Hg1 _].
  pose proof (resolveProperties_grows _ _ _ _ _ _ H) as [Hg2 _].
  destruct (IH _ _ Hnd H) as [Hout Hin]. split.
  - intros key [Hne Hnot]%not_elem_of_cons.
    by rewrite Hout, lookup_insert_ne.
  - intros key prop [[= -> ->]|Hel]%elem_of_cons.
    + exists h, h1, p0'. split; [apply grows_refl|]. split; [done|].
      split; [done|]. by rewrite Hout, lookup_insert_eq.
    + destruct (Hin key prop Hel) as (hk & hk' & prop' & Hg & Hres & Hg' & Hm).
      exists hk, hk', prop'. split; [by eapply grows_trans|done].
Qed.

Lemma resolveAllProperties_fields (l : loc) (h h1 : heap) (err : option error) :
  resolveAllProperties range spec l h = (h1, err) →
  ∀ x, (x < length h)%nat →
       fieldsKept (Properties (h !!! x)) (Properties (h1 !!! x)).
Proof.
  unfold resolveAllProperties. intros H x Hx.
  destruct (decide (0 < size (Properties (h !!! l)))) as [Hsz|Hsz];
    [|simplify_eq; apply fieldsKept_refl].
  destruct (resolveProperties spec _ ∅ h) as [h0 [m|e]] eqn:Hprops.
  - pose proof (resolveProperties_grows _ _ _ _ _ _ Hprops) as [Hg _].
    apply resolveProperties_lookup in Hprops as [Hout Hin]; [|apply range_NoDup].
    simplify_eq. rewrite list_lookup_total_insert.
    case_decide as Hxl; [|rewrite (grows_lookup_total _ _ _ Hg Hx); apply fieldsKept_refl].
    destruct Hxl as [-> _]. simpl. intros key.
    destruct (Properties (h !!! x) !! key) as [prop|] eqn:Hkey.
    + destruct (Hin key prop) as (hk & hk' & prop' & _ & Hres & _ & ->);
        [by apply range_elem|].
      by eapply resolveProperty_sameBut.
    + rewrite Hout, lookup_empty; [done|].
      rewrite range_keys, Hkey. by intros [? ?].
  - apply resolveProperties_grows in Hprops as [Hg _]. simplify_eq.
    rewrite (grows_lookup_total _ _ _ Hg Hx). apply fieldsKept_refl.
Qed.

Lemma ResolveSchema_fields (n : nat) (p : option loc) (h h' : heap)
    (r : res (option loc)) :
  ResolveSchema range spec n p h = Some (h', r) →
  ∀ x, (x < length h)%nat →
       fieldsKept (Properties (h !!! x)) (Properties (h' !!! x)).
Proof.
  revert p h h' r. induction n as [|n IH]; intros p h h' r H x Hx; [done|].
  destruct p as [l|]; [|simpl in H; simplify_eq; apply fieldsKept_refl].
  destruct (decide (Ref (h !!! l) ≠ "")) as [Href|Href].
  { eapply ResolveSchema_no_walk in H; [|right; by exists l].
    rewrite (grows_lookup_total _ _ _ H Hx). apply fieldsKept_refl. }
  apply dec_stable in Href. rewrite ResolveSchema_inline in H by done.
  destruct (resolveAllProperties range spec l h) as [h1 err] eqn:Hblock.
  pose proof (resolveAllProperties_fields _ _ _ _ Hblock x Hx) as Hk1.
  apply resolveAllProperties_effect in Hblock as ([Hlen1 _] & _).
  destruct err as [e|]; [by simplify_eq|].
  destruct (Items (h1 !!! l)) as [i|]; [|by simplify_eq].
  destruct (ResolveSchema range spec n (Some i) h1) as [[h2 [resolved|e]]|] eqn:Hrec;
    [| |done]; simplify_eq.
  - eapply fieldsKept_trans; [done|].
    eapply fieldsKept_trans; [eapply IH; [done|lia]|].
    rewrite list_lookup_total_insert.
    case_decide as Hxl; [destruct Hxl as [-> _]|]; apply fieldsKept_refl.
  - eapply fieldsKept_trans; [done|]. eapply IH; [done|lia].
Qed.

(** X6.  [ResolveSchema] never adds, drops or renames a field, in any schema
    of the store, and a field keeps its description, format, reference,
    example, bounds, pattern and read-only mark: resolution touches the kind
    and the element type of a field, nothing else. *)
Theorem resolve_keeps_fields (n : nat) (p : option loc) (h h' : heap)
    (r : res (option loc)) (x : loc) (s : Schema) :
  ResolveSchema range spec n p h = Some (h', r) → h !! x = Some s →
  ∃ s', h' !! x = Some s'
    ∧ (∀ key, is_Some (Properties s' !! key) ↔ is_Some (Properties s !! key))
    ∧ ∀ key prop prop',
        Properties s !! key = Some prop → Properties s' !! key = Some prop' →
        pDescription prop' = pDescription prop ∧ pFormat prop' = pFormat prop
        ∧ pRef prop' = pRef prop ∧ pExample prop' = pExample prop
        ∧ pMinLength prop' = pMinLength prop ∧ pMaxLength prop' = pMaxLength prop
        ∧ pMinimum prop' = pMinimum prop ∧ pMaximum prop' = pMaximum prop
        ∧ pPattern prop' = pPattern prop ∧ pReadOnly prop' = pReadOnly prop.
Proof.
  intros H Hs. assert (x < length h)%nat as Hx by by eapply lookup_lt_Some.
  pose proof (ResolveSchema_fields _ _ _ _ _ H x Hx) as Hkept.
  pose proof (ResolveSchema_effect _ _ _ _ _ _ _ H) as ([Hlen _] & _).
  rewrite (list_lookup_total_correct _ _ _ Hs) in Hkept.
  exists (h' !!! x). split; [apply list_lookup_lookup_total_lt; lia|]. split.
  - intros key. specialize (Hkept key).
    destruct (Properties s !! key), (Properties (h' !!! x) !! key);
      try done; by split; intros [? ?]; try done; eexists.
  - intros key prop prop' Hprop Hprop'. specialize (Hkept key).
    rewrite Hprop, Hprop' in Hkept. destruct Hkept as (t & i & ->).
    by destruct prop.
Qed.
End FieldLaws.

Lemma resolve_keeps_fields_witness :
  ∃ h' s',
    ResolveSchema map_to_list userSpec 2 (Some 0%nat) [ownerSchema]
    = Some (h', Ok (Some 0%nat))
    ∧ h' !! 0%nat = Some s'
    ∧ (∀ key, is_Some (Properties s' !! key) ↔ is_Some (Properties ownerSchema !! key)).
Proof.
  eexists _, _. split; [vm_compute; reflexivity|].
  destruct (resolve_keeps_fields map_to_list map_to_list_range userSpec 2
              (Some 0%nat) [ownerSchema] _ _ 0%nat ownerSchema eq_refl eq_refl)
    as (s' & Hs' & Hkeys & _).
  vm_compute in Hs'. injection Hs' as <-. split; [reflexivity|exact Hkeys].
Defined.

(** ** Schemas that resolution leaves alone *)

Lemma setProperties_id (s : Schema) : setProperties (Properties s) s = s.
Proof. by destruct s. Qed.

Lemma setItems_id (s : Schema) : setItems (Items s) s = s.
Proof. by destruct s. Qed.

Lemma insert_same (h : heap) (l : loc) : <[l := h !!! l]> h = h.
Proof.
  apply list_insert_id'. intros Hl. by apply list_lookup_lookup_total_lt.
Qed.

Lemma plain_settled (spec : Spec) (h : heap) (p : Property) :
  plain h p → settled spec h p.
Proof. intros [Href Hitems]. split; [by rewrite Href|done]. Qed.

Lemma settled_evolves (spec : Spec) (h h' : heap) (p : Property) :
  evolves h h' → settled spec h p → settled spec h' p.
Proof.
  intros [_ He] [Href Hitems]. split; [done|].
  intros i Hi. destruct (He i) as [-> _]. by apply Hitems.
Qed.

Lemma resolveRef_error (spec : Spec) (ref : string) (h h' : heap) (e : error) :
  resolveRef spec ref h = (h', Err e) → lookupError e ∧ h' = h.
Proof. unfold resolveRef, new. intros H. by repeat (case_match; simplify_eq). Qed.

Lemma resolveProperty_error (spec : Spec) (prop prop' : Property) (h h' : heap)
    (e : error) :
  resolveProperty spec prop h = (h', (prop', Some e)) → lookupError e.
Proof.
  unfold resolveProperty. intros H.
  repeat (case_match; simplify_eq);
    match goal with
    | Hres : resolveRef _ _ _ = (_, Err _) |- _ =>
        by apply resolveRef_error in Hres as [? _]
    end.
Qed.

Section FixedPoints.
Variable range : gmap string Property → list (string * Property).
Hypothesis range_perm : ∀ m, range m ≡ₚ map_to_list m.
Variable spec : Spec.

Lemma resolveProperties_settled (entries : list (string * Property))
    (acc : gmap string Property) (h : heap) :
  NoDup entries.*1 →
  (∀ key prop, (key, prop) ∈ entries → settled spec h prop) →
  ∃ h' m,
    resolveProperties spec entries acc h = (h', Ok m)
    ∧ grows h h'
    ∧ (∀ key, key ∉ entries.*1 → m !! key = acc !! key)
    ∧ (∀ key prop, (key, prop) ∈ entries → m !! key = Some prop)
    ∧ ((∀ key prop, (key, prop) ∈ entries → pRef prop = "") → h' = h).
Proof.
  revert acc h. induction entries as [|[k0 p0] entries IH]; intros acc h Hnd Hs.
  { exists h, acc. split; [done|]. split; [apply grows_refl|].
    split; [done|]. split; [|done]. intros ?? []%elem_of_nil. }
  apply NoDup_cons in Hnd as [Hk0 Hnd].
  destruct (resolveProperty_settled spec p0 h) as (h1 & Hp0 & Hg1 & Hsame1);
    [apply (Hs k0); by left|].
  destruct (IH (<[k0 := p0]> acc) h1 Hnd) as (h' & m & Hres & Hg & Hout & Hin & Hsame).
  { intros key prop Hel. eapply settled_evolves; [by apply grows_evolves|].
    apply (Hs key). by right. }
  exists h', m. simpl. rewrite Hp0. split; [done|].
  split; [by eapply grows_trans|]. split; [|split].
  - intros key [Hne Hnot]%not_elem_of_cons. by rewrite Hout, lookup_insert_ne.
  - intros key prop [[= -> ->]|Hel]%elem_of_cons; [|by apply Hin].
    by rewrite Hout, lookup_insert_eq.
  - intros Hrefs. rewrite Hsame, Hsame1; [done|apply (Hrefs k0); by left|].
    intros key prop Hel. apply (Hrefs key). by right.
Qed.

Lemma resolveAllProperties_settled (l : loc) (h : heap) :
  (∀ key prop, Properties (h !!! l) !! key = Some prop → settled spec h prop) →
  ∃ h1,
    resolveAllProperties range spec l h = (h1, None)
    ∧ grows h h1
    ∧ ((∀ key prop, Properties (h !!! l) !! key = Some prop → pRef prop = "") →
       h1 = h).
Proof.
  intros Hs. unfold resolveAllProperties.
  destruct (decide (0 < size (Properties (h !!! l)))) as [Hsz|Hsz];
    [|exists h; split; [done|]; split; [apply grows_refl|done]].
  assert (l < length h)%nat as Hl.
  { destruct (decide (l < length h)%nat); [done|].
    rewrite zero_beyond in Hsz by lia. simpl in Hsz.
    rewrite map_size_empty in Hsz. lia. }
  destruct (resolveProperties_settled (range (Properties (h !!! l))) ∅ h)
    as (h0 & m & -> & Hg & Hout & Hin & Hsame).
  { by apply range_NoDup. }
  { intros key prop ?%range_elem; [by eapply Hs|done]. }
  assert (m = Properties (h !!! l)) as ->.
  { apply map_eq. intros key.
    destruct (Properties (h !!! l) !! key) as [prop|] eqn:Hkey.
    - apply Hin. by apply range_elem.
    - rewrite Hout, lookup_empty; [done|].
      rewrite range_keys, Hkey by done. by intros [? ?]. }
  exists h0. rewrite <- (grows_lookup_total _ _ _ Hg Hl) at 1.
  rewrite setProperties_id, insert_same. split; [done|]. split; [done|].
  intros Hrefs. apply Hsame. intros key prop ?%range_elem; [by eapply Hrefs|done].
Qed.

(** X7.  On a schema that mentions no reference, neither itself nor in a
    property nor in an element type however deep, [ResolveSchema] returns
    the pointer it was given and leaves the store exactly as it was. *)
Theorem resolve_reference_free (k : nat) (p : option loc) (h : heap) :
  referenceFree h k p →
  ResolveSchema range spec (S k) p h = Some (h, Ok p).
Proof.
  induction 1 as [k|k l Href Hplain Hitems IH]; [done|].
  rewrite ResolveSchema_inline by done.
  destruct (resolveAllProperties_settled l h) as (h1 & -> & _ & Hsame).
  { intros key prop Hkey. by eapply plain_settled, Hplain. }
  rewrite Hsame by (intros key prop Hkey; by destruct (Hplain key prop Hkey)).
  destruct (Items (h !!! l)) as [i|] eqn:Hi; [|done].
  rewrite IH. by rewrite <- Hi, setItems_id, insert_same.
Qed.

(** X8.  When a property of the schema fails to resolve, [ResolveSchema]
    fails with [failed to resolve property <key>: <cause>], where [key] is a
    field of the schema and [cause] is an error of [resolveRef]; the schema
    has then not been assigned its resolved fields: every cell of the store
    is as before. *)
Theorem property_failure (n : nat) (l : loc) (h h' : heap) (key : string)
    (cause : error) :
  ResolveSchema range spec n (Some l) h = Some (h', Err (ErrProperty key cause)) →
  Ref (h !!! l) = ""
  ∧ is_Some (Properties (h !!! l) !! key)
  ∧ lookupError cause
  ∧ ∀ x s, h !! x = Some s → h' !! x = Some s.
Proof.
  destruct n as [|n]; [done|]. intros H.
  destruct (decide (Ref (h !!! l) ≠ "")) as [Href|Href].
  { rewrite ResolveSchema_ref in H by done.
    destruct (resolveRef spec (Ref (h !!! l)) h) as [h1 [l'|e]] eqn:Hres; [done|].
    simplify_eq. by apply resolveRef_error in Hres as [[] _]. }
  apply dec_stable in Href. split; [done|].
  rewrite ResolveSchema_inline in H by done.
  destruct (resolveAllProperties range spec l h) as [h1 [e|]] eqn:Hblock.
  2:{ destruct (Items (h1 !!! l)); [|done].
      by destruct (ResolveSchema range spec n _ h1) as [[h2 [?|?]]|]. }
  simplify_eq. unfold resolveAllProperties in Hblock.
  destruct (decide (0 < size (Properties (h !!! l)))); [|done].
  destruct (resolveProperties spec _ ∅ h) as [h0 [m|e]] eqn:Hprops; [done|].
  simplify_eq.
  assert (∀ entries acc h0,
            resolveProperties spec entries acc h0 = (h', Err (ErrProperty key cause)) →
            grows h0 h' ∧ key ∈ entries.*1 ∧ lookupError cause) as Hloop.
  { clear. induction entries as [|[k0 p0] entries IH]; intros acc h0 H; [done|].
    simpl in H.
    destruct (resolveProperty spec p0 h0) as [h1 [p0' [e|]]] eqn:Hp0.
    - simplify_eq. pose proof (resolveProperty_grows _ _ _ _ _ _ Hp0) as [Hg _].
      split; [done|]. split; [by left|]. by eapply resolveProperty_error.
    - pose proof (resolveProperty_grows _ _ _ _ _ _ Hp0) as [Hg _].
      destruct (IH _ _ H) as (Hg' & Hel & Hc).
      split; [by eapply grows_trans|]. split; [by right|done]. }
  destruct (Hloop _ _ _ Hprops) as (Hg & Hel & Hc).
  split; [exact (proj1 (range_keys _ range_perm _ key) Hel)|]. split; [done|].
  intros x s Hs. rewrite <- Hs. apply grows_lookup; [done|].
  by eapply lookup_lt_Some.
Qed.
End FixedPoints.

Lemma resolve_reference_free_witness :
  ResolveSchema map_to_list userSpec 3 (Some 0%nat) arrayTestHeap
  = Some (arrayTestHeap, Ok (Some 0%nat)).
Proof.
  apply (resolve_reference_free map_to_list map_to_list_range userSpec 2
           (Some 0%nat) arrayTestHeap).
  apply free_cell; [reflexivity| |].
  { intros key p Hkey. vm_compute in Hkey. discriminate. }
  apply (free_cell arrayTestHeap 0 1%nat); [reflexivity| |apply free_nil].
  intros key p Hkey.
  change (Properties (arrayTestHeap !!! 1%nat)) with
    ({[ "id" := typed "integer" ]} : gmap string Property) in Hkey.
  apply lookup_singleton_Some in Hkey as [_ <-]. split; [reflexivity|].
  intros i Hi. discriminate Hi.
Defined.

Lemma property_failure_witness :
  ResolveSchema map_to_list userSpec 2 (Some 0%nat) [petSchema]
  = Some ([petSchema], Err (ErrProperty "pet" (ErrDefinitionNotFound "Pet")))
  ∧ is_Some (Properties petSchema !! "pet")
  ∧ ∀ x s, [petSchema] !! x = Some s → [petSchema] !! x = Some s.
Proof.
  split; [vm_compute; reflexivity|].
  destruct (property_failure map_to_list map_to_list_range userSpec 2 0
              [petSchema] [petSchema] "pet" (ErrDefinitionNotFound "Pet"))
    as (_ & Hkey & _ & Hsame); [vm_compute; reflexivity|].
  split; [exact Hkey|exact Hsame].
Defined.

(** ** Resolving again *)

Section Again.
Variable range : gmap string Property → list (string * Property).
Hypothesis range_perm : ∀ m, range m ≡ₚ map_to_list m.
Variable spec : Spec.

Lemma resolveAllProperties_settles (l : loc) (h h1 : heap) :
  resolveAllProperties range spec l h = (h1, None) →
  ∀ key prop, Properties (h1 !!! l) !! key = Some prop → settled spec h1 prop.
Proof.
  unfold resolveAllProperties. intros H key prop Hkey.
  destruct (decide (0 < size (Properties (h !!! l)))) as [Hsz|Hsz].
  2:{ simplify_eq. assert (Properties (h1 !!! l) = ∅) as Hempty
        by (apply map_size_empty_inv; lia).
      by rewrite Hempty, lookup_empty in Hkey. }
  assert (l < length h)%nat as Hl.
  { destruct (decide (l < length h)%nat); [done|].
    rewrite zero_beyond in Hsz by lia. simpl in Hsz.
    rewrite map_size_empty in Hsz. lia. }
  destruct (resolveProperties spec _ ∅ h) as [h0 [m|e]] eqn:Hprops; [|done].
  pose proof (resolveProperties_grows _ _ _ _ _ _ Hprops) as [Hg _].
  apply resolveProperties_lookup in Hprops as [Hout Hin];
    [|by apply range_NoDup].
  simplify_eq.
  assert (l < length h0)%nat as Hl0 by (apply grows_evolves in Hg as [? _]; lia).
  rewrite list_lookup_total_insert_eq in Hkey by done. simpl in Hkey.
  destruct (decide (key ∈ (range (Properties (h !!! l))).*1)) as [Hel|Hnot].
  - apply (range_keys range range_perm) in Hel as [prop0 Hprop0].
    destruct (Hin key prop0) as (hk & hk' & prop' & _ & Hres & Hg' & Hm);
      [by apply range_elem|].
    rewrite Hkey in Hm. simplify_eq.
    eapply settled_evolves; [|by eapply resolveProperty_settles].
    eapply evolves_trans; [by apply grows_evolves|apply evolves_setProperties].
  - rewrite (Hout key Hnot), lookup_empty in Hkey. done.
Qed.

(** X9.  Resolving a schema that is written out and has no element type a
    second time changes nothing: the second call succeeds like the first,
    returns the same pointer and leaves every cell of the store as the
    first call left it (it only allocates). *)
Theorem resolve_again (n m : nat) (l : loc) (h h1 : heap)
    (resolved : option loc) :
  Ref (h !!! l) = "" → Items (h !!! l) = None →
  ResolveSchema range spec (S n) (Some l) h = Some (h1, Ok resolved) →
  resolved = Some l
  ∧ ∃ h2,
      ResolveSchema range spec (S m) (Some l) h1 = Some (h2, Ok (Some l))
      ∧ (length h1 ≤ length h2)%nat
      ∧ ∀ x s, h1 !! x = Some s → h2 !! x = Some s.
Proof.
  intros Href Hitems H. rewrite ResolveSchema_inline in H by done.
  destruct (resolveAllProperties range spec l h) as [h1' [e|]] eqn:Hblock; [done|].
  pose proof (resolveAllProperties_settles _ _ _ Hblock) as Hsettled.
  apply resolveAllProperties_effect in Hblock as ([_ He] & _).
  destruct (He l) as (Hr & Hi & _).
  rewrite (Hi Hitems) in H. simplify_eq. split; [done|].
  destruct (resolveAllProperties_settled range range_perm spec l h1 Hsettled)
    as (h2 & Hblock2 & Hg & _).
  exists h2. rewrite ResolveSchema_inline by congruence. rewrite Hblock2.
  pose proof (grows_evolves _ _ Hg) as [Hlen He2].
  destruct (He2 l) as (_ & Hi2 & _). rewrite (Hi2 (Hi Hitems)).
  split; [done|]. split; [done|].
  intros x s Hs. rewrite <- Hs. apply grows_lookup; [done|].
  by eapply lookup_lt_Some.
Qed.

Lemma resolveProperties_fails (entries : list (string * Property))
    (acc : gmap string Property) (h : heap) (key : string) (prop : Property) :
  (key, prop) ∈ entries →
  (∀ h0, ∃ h0' prop' e, resolveProperty spec prop h0 = (h0', (prop', Some e))) →
  ∃ h' key' cause,
    resolveProperties spec entries acc h = (h', Err (ErrProperty key' cause)).
Proof.
  intros Hel Hfail. revert acc h.
  induction entries as [|[k0 p0] entries IH]; intros acc h;
    [by apply elem_of_nil in Hel|].
  simpl. destruct (resolveProperty spec p0 h) as [h1 [p0' [e|]]] eqn:Hp0;
    [by eexists _, _, _|].
  apply elem_of_cons in Hel as [[= -> ->]|Hel]; [|by apply IH].
  destruct (Hfail h) as (? & ? & ? & Hf). congruence.
Qed.

(** X10.  Resolving twice is not resolving once.  Take an array that is
    written out, without fields of its own, whose element type is a reference
    to a definition [D], and let a field of [D] be a reference to a
    definition that the table does not hold.  The first call succeeds: it
    puts a copy of [D] in place of the element type and does not look at the
    fields of [D].  The second call does, in the copy, and fails with
    [failed to resolve items: failed to resolve property ...]. *)
Theorem second_resolution_fails (n : nat) (l i : loc) (h : heap)
    (D : Definition_) (key missing : string) (prop : Property) :
  (l < length h)%nat →
  Ref (h !!! l) = "" → Properties (h !!! l) = ∅ → Items (h !!! l) = Some i →
  refersTo spec (Ref (h !!! i)) D →
  dProperties D !! key = Some prop →
  pRef prop = "#/definitions/" +:+ missing → spDefinitions spec !! missing = None →
  ∃ h1,
    ResolveSchema range spec (S (S n)) (Some l) h = Some (h1, Ok (Some l))
    ∧ Items (h1 !!! l) = Some (length h)
    ∧ ∃ h2 key' cause,
        ResolveSchema range spec (S (S n)) (Some l) h1
        = Some (h2, Err (ErrItems (ErrProperty key' cause))).
Proof.
  intros Hl Href Hprops Hitems HD Hkey Hpref Hmissing.
  assert (resolveAllProperties range spec l h = (h, None)) as Hblock.
  { unfold resolveAllProperties. rewrite Hprops, map_size_empty.
    by destruct (decide (0 < 0)); [lia|]. }
  set (h0 := (h ++ [schemaOf D])%list).
  set (h1 := <[l := setItems (Some (length h)) (h0 !!! l)]> h0).
  assert (length h0 = S (length h)) as Hlen0
    by (unfold h0; rewrite length_app; simpl; lia).
  assert (ResolveSchema range spec (S (S n)) (Some l) h = Some (h1, Ok (Some l)))
    as Hfirst.
  { rewrite ResolveSchema_inline, Hblock, Hitems by done.
    by rewrite (ResolveSchema_refersTo range spec _ D n i h HD eq_refl). }
  assert (h1 !!! l = setItems (Some (length h)) (h !!! l)) as Hcell.
  { unfold h1. rewrite list_lookup_total_insert_eq by lia.
    unfold h0. by rewrite lookup_total_app_l. }
  assert (h1 !!! length h = schemaOf D) as Hcopy.
  { unfold h1. rewrite list_lookup_total_insert_ne by lia.
    unfold h0. by rewrite lookup_total_app_r, Nat.sub_diag. }
  exists h1. split; [done|]. split; [by rewrite Hcell|].
  assert (resolveAllProperties range spec l h1 = (h1, None)) as Hblock1.
  { unfold resolveAllProperties. rewrite Hcell. simpl.
    rewrite Hprops, map_size_empty. by destruct (decide (0 < 0)); [lia|]. }
  rewrite ResolveSchema_inline by (rewrite Hcell; done).
  rewrite Hblock1, Hcell. cbn [Items setItems].
  rewrite ResolveSchema_inline by (by rewrite Hcopy).
  destruct (resolveProperties_fails (range (dProperties D)) ∅ h1 key prop)
    as (h2 & key' & cause & Hfails).
  { by apply range_elem. }
  { intros h'. unfold resolveProperty. rewrite Hpref.
    destruct (decide ("#/definitions/" +:+ missing ≠ "")) as [_|[]]; [|done].
    assert (resolveRef spec ("#/definitions/" +:+ missing) h'
            = (h', Err (ErrDefinitionNotFound missing))) as ->.
    { unfold resolveRef.
      replace (HasPrefix ("#/definitions/" +:+ missing) "#/components/schemas/")
        with false by reflexivity.
      by rewrite HasPrefix_app, TrimPrefix_app, Hmissing. }
    by eexists _, _, _. }
  exists h2, key', cause.
  unfold resolveAllProperties. rewrite Hcopy.
  change (Properties (schemaOf D)) with (dProperties D).
  destruct (decide (0 < size (dProperties D))) as [_|Hsz].
  - by rewrite Hfails.
  - assert (dProperties D = ∅) as Hempty by (apply map_size_empty_inv; lia).
    by rewrite Hempty, lookup_empty in Hkey.
Qed.

Lemma resolveProperties_error_shape (entries : list (string * Property))
    (acc : gmap string Property) (h h' : heap) (e : error) :
  resolveProperties spec entries acc h = (h', Err e) →
  ∃ key cause, e = ErrProperty key cause ∧ lookupError cause.
Proof.
  revert acc h. induction entries as [|[k0 p0] entries IH]; intros acc h H;
    [done|].
  simpl in H. destruct (resolveProperty spec p0 h) as [h1 [p0' [e'|]]] eqn:Hp0.
  - simplify_eq. eexists _, _. split; [done|]. by eapply resolveProperty_error.
  - by eapply IH.
Qed.

(** X11.  An error of [ResolveSchema] is an error of [resolveRef]
    (not found, or unsupported format), wrapped at most once as the failure
    of a property, inside one wrapping as the failure of an element type for
    each level of [Items] that was entered. *)
Theorem resolve_error_shape (n : nat) (p : option loc) (h h' : heap) (e : error) :
  ResolveSchema range spec n p h = Some (h', Err e) → errorShape e.
Proof.
  revert p h h' e. induction n as [|n IH]; intros p h h' e H; [done|].
  destruct p as [l|]; [|done].
  destruct (decide (Ref (h !!! l) ≠ "")) as [Href|Href].
  { rewrite ResolveSchema_ref in H by done.
    destruct (resolveRef spec (Ref (h !!! l)) h) as [h1 [l'|e']] eqn:Hres; [done|].
    simplify_eq. apply resolveRef_error in Hres as [He _]. by destruct e. }
  apply dec_stable in Href. rewrite ResolveSchema_inline in H by done.
  destruct (resolveAllProperties range spec l h) as [h1 [e'|]] eqn:Hblock.
  - simplify_eq. unfold resolveAllProperties in Hblock.
    destruct (decide (0 < size (Properties (h !!! l)))); [|done].
    destruct (resolveProperties spec _ ∅ h) as [h0 [m|e']] eqn:Hprops; [done|].
    simplify_eq.
    by apply resolveProperties_error_shape in Hprops as (key & cause & -> & Hc).
  - destruct (Items (h1 !!! l)) as [i|]; [|done].
    destruct (ResolveSchema range spec n (Some i) h1) as [[h2 [?|e']]|] eqn:Hrec;
      [done| |done].
    simplify_eq. simpl. by eapply IH.
Qed.
End Again.

(** ** Examples of objects *)

Lemma buildPropertyExample_example (unicodeToLower : string → string)
    (self : option loc → Z → option Value) (fieldName : string)
    (prop : Property) (depth : Z) :
  pExample prop ≠ VNull →
  buildPropertyExample unicodeToLower self fieldName prop depth
  = Some (pExample prop).
Proof. unfold buildPropertyExample. by destruct (pExample prop). Qed.

Lemma buildPropertyExample_array (unicodeToLower : string → string)
    (self : option loc → Z → option Value) (fieldName : string)
    (prop : Property) (depth : Z) (i : loc) :
  pExample prop = VNull → pRef prop = "" → pType prop = "array" →
  pItems prop = Some i →
  buildPropertyExample unicodeToLower self fieldName prop depth
  = v ← self (Some i) (depth + 1)%Z; Some (VList [v]).
Proof.
  intros Hex Href Hty Hi. unfold buildPropertyExample.
  rewrite Hex, Href, Hty, Hi. reflexivity.
Qed.

Section ObjectExamples.
Variable range : gmap string Property → list (string * Property).
Hypothesis range_perm : ∀ m, range m ≡ₚ map_to_list m.
Variable unicodeToLower : string → string.

Lemma buildExample_object (n : nat) (h : heap) (l : loc) (depth : Z) :
  Type_ (h !!! l) = "object" → (depth ≤ 10)%Z → (fuelFor (depth + 2) ≤ n)%nat →
  ∃ obj,
    buildExample range unicodeToLower (S n) h (Some l) depth = Some (VObject obj)
    ∧ ∀ key,
        obj !! key
        = prop ← Properties (h !!! l) !! key;
          buildPropertyExample unicodeToLower
            (buildExample range unicodeToLower n h) key prop (depth + 1).
Proof.
  intros Hty Hd Hn. rewrite buildExample_S by done.
  destruct (decide (Type_ (h !!! l) = "object")); [|done].
  set (self := buildExample range unicodeToLower n h).
  set (f := λ (name : string) (prop : Property),
              default VNull
                (buildPropertyExample unicodeToLower self name prop (depth + 1))).
  assert (∀ name prop,
            buildPropertyExample unicodeToLower self name prop (depth + 1)
            = Some (f name prop)) as Hf.
  { intros name prop.
    destruct (buildPropertyExample_returns unicodeToLower self name prop
                (depth + 1)) as [v Hv]; [|by unfold f; rewrite Hv].
    intros schema. apply buildExample_returns.
    by replace (depth + 1 + 1)%Z with (depth + 2)%Z by lia. }
  rewrite (buildObjectExample_fields range range_perm unicodeToLower self f)
    by (intros; apply Hf).
  eexists. split; [done|]. intros key. rewrite map_lookup_imap.
  destruct (Properties (h !!! l) !! key) as [prop|]; simpl; [|done].
  by rewrite Hf.
Qed.

Lemma fuelFor_object (depth : Z) (n : nat) :
  (depth ≤ 10)%Z → (fuelFor depth ≤ S n)%nat → (fuelFor (depth + 2) ≤ n)%nat.
Proof. unfold fuelFor. lia. Qed.

(** X12.  The example of an object within the depth bound is a mapping with
    exactly the fields the schema declares, in whatever order they are
    visited; a field that carries an example of its own has that example,
    as it is, and a field that is a reference without example has the text
    [<Name>]. *)
Theorem object_example_fields (n : nat) (h : heap) (l : loc) (depth : Z) :
  Type_ (h !!! l) = "object" → (depth ≤ 10)%Z → (fuelFor depth ≤ n)%nat →
  ∃ obj,
    buildExample range unicodeToLower n h (Some l) depth = Some (VObject obj)
    ∧ (∀ key, is_Some (obj !! key) ↔ is_Some (Properties (h !!! l) !! key))
    ∧ (∀ key prop,
         Properties (h !!! l) !! key = Some prop → pExample prop ≠ VNull →
         obj !! key = Some (pExample prop))
    ∧ (∀ key prop,
         Properties (h !!! l) !! key = Some prop →
         pExample prop = VNull → pRef prop ≠ "" →
         obj !! key = Some (VString ("<" +:+ ExtractRefName (pRef prop) +:+ ">"))).
Proof.
  intros Hty Hd Hn. destruct n as [|n]; [unfold fuelFor in Hn; lia|].
  destruct (buildExample_object n h l depth Hty Hd) as (obj & -> & Hobj);
    [by apply fuelFor_object|].
  exists obj. split; [done|]. split; [|split].
  - intros key. rewrite Hobj.
    destruct (Properties (h !!! l) !! key) as [prop|]; simpl;
      [|by split; intros [? ?]].
    split; [by eexists|]. intros _.
    apply buildPropertyExample_returns. intros schema.
    apply buildExample_returns.
    replace (depth + 1 + 1)%Z with (depth + 2)%Z by lia. by apply fuelFor_object.
  - intros key prop Hkey Hex. rewrite Hobj, Hkey. simpl.
    by apply buildPropertyExample_example.
  - intros key prop Hkey Hex Href. rewrite Hobj, Hkey. simpl.
    unfold buildPropertyExample. rewrite Hex.
    by destruct (decide (pRef prop ≠ "")).
Qed.

(** X13.  A field of kind array with an element type, in an object at depth
    [d], gets a list of one element, which is the example of the element type
    at depth [d + 2]: each object on the way costs two levels, and from
    depth 9 on the element is [nil]. *)
Theorem array_field_two_levels (n : nat) (h : heap) (l i : loc) (depth : Z)
    (key : string) (prop : Property) :
  Type_ (h !!! l) = "object" → (depth ≤ 10)%Z → (fuelFor depth ≤ n)%nat →
  Properties (h !!! l) !! key = Some prop →
  pExample prop = VNull → pRef prop = "" → pType prop = "array" →
  pItems prop = Some i →
  ∃ obj item,
    buildExample range unicodeToLower n h (Some l) depth = Some (VObject obj)
    ∧ obj !! key = Some (VList [item])
    ∧ (∀ k, buildExample range unicodeToLower (fuelFor (depth + 2) + k) h (Some i)
              (depth + 2) = Some item)
    ∧ ((9 ≤ depth)%Z → item = VNull).
Proof.
  intros Hty Hd Hn Hkey Hex Href Harr Hi.
  destruct n as [|n]; [unfold fuelFor in Hn; lia|].
  pose proof (fuelFor_object depth n Hd Hn) as Hn'.
  destruct (buildExample_object n h l depth Hty Hd Hn') as (obj & -> & Hobj).
  destruct (buildExample_returns range unicodeToLower n h (Some i) (depth + 2)%Z Hn')
    as [item Hitem].
  exists obj, item. split; [done|]. split.
  { rewrite Hobj, Hkey. simpl.
    rewrite (buildPropertyExample_array _ _ _ _ _ i) by done.
    replace (depth + 1 + 1)%Z with (depth + 2)%Z by lia. by rewrite Hitem. }
  rewrite buildExample_stable in Hitem by done. split.
  - intros k. by apply buildExample_more.
  - intros Hdeep. unfold fuelFor in Hitem.
    rewrite buildExample_guard in Hitem by lia. congruence.
Qed.

(** X14.  Resolving a reference to an object definition and building the
    example of the result gives a mapping with exactly the fields of the
    definition.  Its fields are not resolved on the way: one that is a
    reference (without example) appears as the text [<Name>], whether the
    definition it names exists or not. *)
Theorem resolve_then_example_fields (spec : Spec) (ref : string)
    (D : Definition_) (h : heap) (l : loc) (n k : nat) :
  refersTo spec ref D → Ref (h !!! l) = ref → dType D = "object" →
  ∃ h' resolved obj,
    ResolveSchema range spec (S n) (Some l) h = Some (h', Ok resolved)
    ∧ buildExample range unicodeToLower (fuelFor 0 + k) h' resolved 0
      = Some (VObject obj)
    ∧ (∀ key, is_Some (obj !! key) ↔ is_Some (dProperties D !! key))
    ∧ (∀ key prop,
         dProperties D !! key = Some prop → pExample prop = VNull →
         pRef prop ≠ "" →
         obj !! key = Some (VString ("<" +:+ ExtractRefName (pRef prop) +:+ ">"))).
Proof.
  intros HD Hl Hobj.
  set (h' := (h ++ [schemaOf D])%list).
  assert (h' !!! length h = schemaOf D) as Hcell
    by (unfold h'; by rewrite lookup_total_app_r, Nat.sub_diag).
  assert (Type_ (h' !!! length h) = "object") as Hty by by rewrite Hcell.
  assert (∃ m, (fuelFor 0 + k = S m)%nat ∧ (fuelFor (0 + 2) ≤ m)%nat)
    as (m & -> & Hm) by (exists (Z.to_nat 11 + k)%nat; unfold fuelFor; lia).
  destruct (buildExample_object m h' (length h) 0 Hty) as (obj & Hres & Hfields);
    [lia|done|].
  exists h', (Some (length h)), obj.
  subst ref. split; [by eapply ResolveSchema_refersTo|].
  split; [done|].
  rewrite Hcell in Hfields.
  change (Properties (schemaOf D)) with (dProperties D) in Hfields.
  split.
  - intros key. rewrite Hfields.
    destruct (dProperties D !! key) as [prop|]; simpl; [|by split; intros [? ?]].
    split; [by eexists|]. intros _.
    apply buildPropertyExample_returns. intros schema.
    by apply buildExample_returns.
  - intros key prop Hkey Hex Href. rewrite Hfields, Hkey. simpl.
    unfold buildPropertyExample. rewrite Hex.
    by destruct (decide (pRef prop ≠ "")).
Qed.
End ObjectExamples.

(** ** Literals by field name *)

(** X15.  For a string property with none of the formats [date],
    [date-time], [email] and without [email] in its lower-case field name:
    a field name with [name] in it gives ["Sample "] followed by the field
    name as it is written, and otherwise one with [id] in it gives the
    sample UUID.  Whatever the property, the literal is never empty. *)
Theorem name_and_id_literals (unicodeToLower : string → string) :
  (∀ fieldName prop,
     pFormat prop ≠ "date" → pFormat prop ≠ "date-time" → pFormat prop ≠ "email" →
     Contains (ToLower unicodeToLower fieldName) "email" = false →
     Contains (ToLower unicodeToLower fieldName) "name" = true →
     generateStringValue unicodeToLower fieldName prop = "Sample " +:+ fieldName)
  ∧ (∀ fieldName prop,
       pFormat prop ≠ "date" → pFormat prop ≠ "date-time" → pFormat prop ≠ "email" →
       Contains (ToLower unicodeToLower fieldName) "email" = false →
       Contains (ToLower unicodeToLower fieldName) "name" = false →
       Contains (ToLower unicodeToLower fieldName) "id" = true →
       generateStringValue unicodeToLower fieldName prop
       = "123e4567-e89b-12d3-a456-426614174000")
  ∧ (∀ fieldName prop, generateStringValue unicodeToLower fieldName prop ≠ "").
Proof.
  split; [|split].
  - intros fieldName prop H1 H2 H3 He Hn. unfold generateStringValue.
    rewrite He, Hn. rewrite bool_decide_eq_false_2 by done.
    by repeat case_decide.
  - intros fieldName prop H1 H2 H3 He Hn Hi. unfold generateStringValue.
    rewrite He, Hn, Hi. rewrite bool_decide_eq_false_2 by done.
    by repeat case_decide.
  - intros fieldName prop. unfold generateStringValue.
    repeat (case_decide || case_match); done.
Qed.

Lemma name_and_id_literals_witness :
  generateStringValue id "UserName" (typed "string") = "Sample UserName"
  ∧ generateStringValue id "width" (typed "string")
    = "123e4567-e89b-12d3-a456-426614174000".
Proof.
  destruct (name_and_id_literals id) as (Hname & Hid & _).
  split; [apply Hname|apply Hid]; (reflexivity || discriminate).
Defined.

(** ** An array of references, before and after [resolveProperty] *)

Section ArrayOfReferences.
Variable range : gmap string Property → list (string * Property).
Variable unicodeToLower : string → string.
Variable spec : Spec.

Lemma resolveProperty_array_ref (prop : Property) (h : heap) (i : loc)
    (D : Definition_) :
  pRef prop = "" → pItems prop = Some i → refersTo spec (Ref (h !!! i)) D →
  resolveProperty spec prop h
  = ((h ++ [schemaOf D])%list, (withItems (Some (length h)) prop, None)).
Proof.
  intros Href Hi HD. unfold resolveProperty.
  destruct (decide (pRef prop ≠ "")); [done|]. rewrite Hi.
  destruct (decide (Ref (h !!! i) ≠ "")) as [_|Hnone].
  - by rewrite (resolveRef_refersTo _ _ _ _ HD).
  - apply dec_stable in Hnone. by apply refersTo_nonempty in HD.
Qed.

(** X16.  Take a property of kind array whose element type is a reference
    (a schema with a [$ref] and no kind of its own) to a definition [D].  As
    it stands its example is the list of one [nil], for [buildExample] does
    not follow references.  [resolveProperty] puts a copy of [D] in place of
    the element type, and then the example is the list of the example of
    that copy. *)
Theorem array_of_references_example (fieldName : string) (prop : Property)
    (h : heap) (i : loc) (D : Definition_) (depth : Z) (n : nat) :
  pExample prop = VNull → pRef prop = "" → pType prop = "array" →
  pItems prop = Some i → Type_ (h !!! i) = "" →
  refersTo spec (Ref (h !!! i)) D →
  buildPropertyExample unicodeToLower (buildExample range unicodeToLower (S n) h)
    fieldName prop depth
  = Some (VList [VNull])
  ∧ ∃ h' prop' item,
      resolveProperty spec prop h = (h', (prop', None))
      ∧ pItems prop' = Some (length h)
      ∧ h' !! length h
        = Some (mkSchema (dType D) "" "" (dProperties D) (dRequired D) None)
      ∧ (∀ k, buildExample range unicodeToLower (fuelFor (depth + 1) + k) h'
                (Some (length h)) (depth + 1) = Some item)
      ∧ ∀ k, buildPropertyExample unicodeToLower
               (buildExample range unicodeToLower (fuelFor (depth + 1) + k) h')
               fieldName prop' depth
             = Some (VList [item]).
Proof.
  intros Hex Href Harr Hi Hkind HD. split.
  - rewrite (buildPropertyExample_array _ _ _ _ _ i) by done.
    destruct (decide (10 < depth + 1)%Z).
    + by rewrite buildExample_guard.
    + rewrite buildExample_S by lia. by rewrite Hkind.
  - set (h' := (h ++ [schemaOf D])%list).
    destruct (buildExample_returns range unicodeToLower (fuelFor (depth + 1)) h'
                (Some (length h)) (depth + 1)%Z) as [item Hitem]; [done|].
    exists h', (withItems (Some (length h)) prop), item.
    split; [by apply (resolveProperty_array_ref _ _ i)|]. split; [done|].
    split; [unfold h'; by rewrite lookup_app_r, Nat.sub_diag|].
    assert (∀ k, buildExample range unicodeToLower (fuelFor (depth + 1) + k) h'
                   (Some (length h)) (depth + 1) = Some item) as Hall
      by (intros k; by apply buildExample_more).
    split; [done|]. intros k.
    rewrite (buildPropertyExample_array _ _ _ _ _ (length h)) by done.
    by rewrite Hall.
Qed.

(** X17.  The type the table shows for a field.  A field that is a
    reference is shown by the name of the reference, before and after
    [resolveProperty].  An array whose element type is a reference to a
    definition [D] is shown with the name of the reference in brackets
    before, and with the kind of [D] in brackets after (with none when [D]
    has no kind). *)
Theorem shown_type_through_resolution (prop : Property) (h : heap) :
  (pRef prop ≠ "" →
   ∀ h' prop' err, resolveProperty spec prop h = (h', (prop', err)) →
     getPropertyType h prop = ExtractRefName (pRef prop)
     ∧ getPropertyType h' prop' = ExtractRefName (pRef prop))
  ∧ (∀ i D,
       pRef prop = "" → pType prop = "array" → pFormat prop = "" →
       pItems prop = Some i → refersTo spec (Ref (h !!! i)) D →
       getPropertyType h prop
       = "array[" +:+ ExtractRefName (Ref (h !!! i)) +:+ "]"
       ∧ ∃ h' prop',
           resolveProperty spec prop h = (h', (prop', None))
           ∧ getPropertyType h' prop'
             = if decide (dType D ≠ "") then "array[" +:+ dType D +:+ "]"
               else "array").
Proof.
  split.
  - intros Href h' prop' err Hres.
    apply resolveProperty_sameBut in Hres as (t & i & ->).
    unfold getPropertyType.
    replace (pRef (withItems i (withType t prop))) with (pRef prop)
      by by destruct prop.
    by destruct (decide (pRef prop ≠ "")).
  - intros i D Href Harr Hfmt Hi HD.
    pose proof (refersTo_nonempty _ _ _ HD) as Hne. split.
    + unfold getPropertyType. rewrite Href, Harr, Hfmt, Hi. simpl.
      by destruct (decide (Ref (h !!! i) ≠ "")).
    + eexists _, _. split; [by apply (resolveProperty_array_ref _ _ i)|].
      unfold getPropertyType. simpl.
      rewrite Href, Harr, Hfmt. simpl.
      rewrite lookup_total_app_r, Nat.sub_diag by done. simpl.
      by destruct (decide (dType D ≠ "")).
Qed.
End ArrayOfReferences.

(** ** The constraints column and the configuration *)

Lemma isFieldRequired_elem (fieldName : string) (required : list string) :
  isFieldRequired fieldName required = true ↔ fieldName ∈ required.
Proof.
  induction required as [|req required IH]; simpl.
  - split; [done|]. by intros ?%elem_of_nil.
  - rewrite elem_of_cons. destruct (decide (req = fieldName)) as [->|Hne].
    + split; [by left|done].
    + rewrite IH. split; [by right|]. by intros [->|?].
Qed.

Lemma Join_first (c : ascii) (s sep : string) (elems : list string) :
  String.get 0 (Join (String c s :: elems) sep) = Some c.
Proof. by destruct elems. Qed.

(** X18.  The constraints column of a field is ["-"] exactly when the field
    is not among the required names, neither length bound is positive and
    there is no pattern: [Minimum] and [Maximum] never show.  For a required
    field the column starts with [<strong>Required</strong>]. *)
Theorem no_constraints_iff (fieldName : string) (prop : Property)
    (required : list string) :
  (formatConstraints fieldName prop required = "-"
   ↔ (fieldName ∉ required) ∧ (pMinLength prop ≤ 0)%Z ∧ (pMaxLength prop ≤ 0)%Z
     ∧ pPattern prop = "")
  ∧ (fieldName ∈ required →
     HasPrefix (formatConstraints fieldName prop required)
       "<strong>Required</strong>" = true).
Proof.
  unfold formatConstraints. rewrite <- isFieldRequired_elem.
  destruct (isFieldRequired fieldName required);
    destruct (bool_decide_reflect (0 < pMinLength prop)%Z);
    destruct (bool_decide_reflect (0 < pMaxLength prop)%Z);
    destruct (decide (pPattern prop ≠ "")) as [Hpat|Hpat];
    try apply dec_stable in Hpat; simpl;
    (split; [split|]);
    try (intros H; apply (f_equal (String.get 0)) in H; rewrite Join_first in H;
         discriminate H);
    try (intros (Hreq & Hmin & Hmax & Hp); done || lia);
    try done;
    try (intros _; split; [done|split; [lia|split; [lia|done]]]).
Qed.

(** X19.  [LoadFromEnv] never fails, takes the five values as they are in
    the environment, and enables Confluence exactly when the base URL, the
    user name, the API token and the space key are all non-empty; the id of
    the parent page plays no part. *)
Theorem confluence_enabled_iff (Getenv : string → string) :
  let c := (LoadFromEnv Getenv).1 in
  (LoadFromEnv Getenv).2 = None
  ∧ (IsConfluenceEnabled c = true
     ↔ Getenv "CONFLUENCE_BASE_URL" ≠ "" ∧ Getenv "CONFLUENCE_USERNAME" ≠ ""
       ∧ Getenv "CONFLUENCE_API_TOKEN" ≠ "" ∧ Getenv "CONFLUENCE_SPACE_KEY" ≠ "")
  ∧ BaseURL (Confluence c) = Getenv "CONFLUENCE_BASE_URL"
  ∧ Username (Confluence c) = Getenv "CONFLUENCE_USERNAME"
  ∧ APIToken (Confluence c) = Getenv "CONFLUENCE_API_TOKEN"
  ∧ SpaceKey (Confluence c) = Getenv "CONFLUENCE_SPACE_KEY"
  ∧ ParentPageID (Confluence c) = Getenv "CONFLUENCE_PARENT_PAGE_ID".
Proof.
  simpl. split; [done|]. split; [|done].
  unfold IsConfluenceEnabled. simpl.
  rewrite !andb_true_iff, !bool_decide_eq_true. tauto.
Qed.

(** ** Termination of [ResolveSchema] *)

Section Termination.
Variable range : gmap string Property → list (string * Property).
Variable spec : Spec.

(** X20.  [ResolveSchema] returns whenever the chain of element types from
    the schema meets [nil] or a reference after [k] schemas that are
    written out, and what it returns is the same for every bound above
    [k]. *)
Theorem resolve_returns (k : nat) (p : option loc) (h : heap) :
  chainEnds h k p →
  ∃ h' r, ∀ j, ResolveSchema range spec (S k + j) p h = Some (h', r).
Proof.
  intros Hc. destruct (ResolveSchema_returns range spec k p h Hc) as [[h' r] H].
  exists h', r. intros j. by apply ResolveSchema_more.
Qed.

(** X21.  [ResolveSchema] has no bound on the depth of its own: on a schema
    that is written out, has no fields and is its own element type, it does
    not return. *)
Theorem resolve_self_loop (l : loc) (h : heap) :
  Ref (h !!! l) = "" → Properties (h !!! l) = ∅ → Items (h !!! l) = Some l →
  ∀ n, ResolveSchema range spec n (Some l) h = None.
Proof.
  intros Href Hprops Hitems n. induction n as [|n IH]; [done|].
  rewrite ResolveSchema_inline by done. unfold resolveAllProperties.
  rewrite Hprops, map_size_empty. simpl. by rewrite Hitems, IH.
Qed.
End Termination.

(** ** The statements above at the schemas of the tests *)

Lemma resolve_again_witness :
  ∃ h1 h2,
    ResolveSchema map_to_list userSpec 1 (Some 0%nat) [ownerSchema]
    = Some (h1, Ok (Some 0%nat))
    ∧ ResolveSchema map_to_list userSpec 1 (Some 0%nat) h1
      = Some (h2, Ok (Some 0%nat))
    ∧ (length h1 ≤ length h2)%nat.
Proof.
  set (h1 := match ResolveSchema map_to_list userSpec 1 (Some 0%nat) [ownerSchema]
             with Some (h1, _) => h1 | None => [] end).
  assert (ResolveSchema map_to_list userSpec 1 (Some 0%nat) [ownerSchema]
          = Some (h1, Ok (Some 0%nat))) as H by (vm_compute; reflexivity).
  destruct (resolve_again map_to_list map_to_list_range userSpec 0 0 0
              [ownerSchema] h1 (Some 0%nat)) as (_ & h2 & H2 & Hlen & _);
    [reflexivity|reflexivity|exact H|].
  exists h1, h2. split; [exact H|]. split; [exact H2|exact Hlen].
Defined.

Lemma second_resolution_fails_witness :
  ∃ h1,
    ResolveSchema map_to_list danglingSpec 2 (Some 0%nat) usersHeap
    = Some (h1, Ok (Some 0%nat))
    ∧ Items (h1 !!! 0%nat) = Some 2%nat
    ∧ ∃ h2 key' cause,
        ResolveSchema map_to_list danglingSpec 2 (Some 0%nat) h1
        = Some (h2, Err (ErrItems (ErrProperty key' cause))).
Proof.
  apply (second_resolution_fails map_to_list map_to_list_range danglingSpec 0 0 1
           usersHeap
           (mkDefinition "object" {[ "pet" := refTo "#/definitions/Pet" ]} [] "")
           "pet" "Pet" (refTo "#/definitions/Pet")).
  - simpl. lia.
  - reflexivity.
  - reflexivity.
  - reflexivity.
  - left. exists "User". split; reflexivity.
  - reflexivity.
  - reflexivity.
  - reflexivity.
Defined.

Lemma resolve_error_shape_witness :
  errorShape (ErrProperty "pet" (ErrDefinitionNotFound "Pet")).
Proof.
  apply (resolve_error_shape map_to_list userSpec 2 (Some 0%nat)
           [petSchema] [petSchema]).
  vm_compute. reflexivity.
Defined.

Lemma object_example_fields_witness :
  ∃ obj,
    buildExample map_to_list id (fuelFor 0) arrayTestHeap (Some 1%nat) 0
    = Some (VObject obj)
    ∧ ∀ key, is_Some (obj !! key)
             ↔ is_Some (Properties (arrayTestHeap !!! 1%nat) !! key).
Proof.
  destruct (object_example_fields map_to_list map_to_list_range id (fuelFor 0)
              arrayTestHeap 1 0) as (obj & H & Hkeys & _);
    [reflexivity|lia|lia|].
  exists obj. split; [exact H|exact Hkeys].
Defined.

Lemma array_field_two_levels_witness :
  ∃ obj item,
    buildExample map_to_list id (fuelFor 0) tagsHeap (Some 0%nat) 0
    = Some (VObject obj)
    ∧ obj !! "tags" = Some (VList [item])
    ∧ ∀ k, buildExample map_to_list id (fuelFor (0 + 2) + k) tagsHeap
             (Some 1%nat) (0 + 2) = Some item.
Proof.
  destruct (array_field_two_levels map_to_list map_to_list_range id (fuelFor 0)
              tagsHeap 0 1 0 "tags" listProperty)
    as (obj & item & H & Htags & Hitem & _);
    [reflexivity|lia|lia|reflexivity|reflexivity|reflexivity|reflexivity
    |reflexivity|].
  exists obj, item. split; [exact H|]. split; [exact Htags|exact Hitem].
Defined.

Lemma resolve_then_example_fields_witness :
  ∃ h' resolved obj,
    ResolveSchema map_to_list nestedSpec 1 (Some 0%nat)
      [refSchema "#/components/schemas/User"]
    = Some (h', Ok resolved)
    ∧ buildExample map_to_list id (fuelFor 0 + 0) h' resolved 0
      = Some (VObject obj)
    ∧ obj !! "address" = Some (VString "<Address>").
Proof.
  set (D := mkDefinition "object"
              {[ "name" := typed "string";
                 "address" := refTo "#/components/schemas/Address" ]} [] "").
  destruct (resolve_then_example_fields map_to_list map_to_list_range id
              nestedSpec "#/components/schemas/User" D
              [refSchema "#/components/schemas/User"] 0 0 0)
    as (h' & resolved & obj & H & Hobj & _ & Hrefs).
  - right. eexists "User", _. split; [reflexivity|]. split; reflexivity.
  - reflexivity.
  - reflexivity.
  - exists h', resolved, obj. split; [exact H|]. split; [exact Hobj|].
    apply (Hrefs "address" (refTo "#/components/schemas/Address"));
      [reflexivity|reflexivity|discriminate].
Defined.

Lemma array_of_references_example_witness :
  buildPropertyExample id (buildExample map_to_list id 1 usersHeap)
    "users" listProperty 0
  = Some (VList [VNull])
  ∧ ∃ h' prop' item,
      resolveProperty userSpec listProperty usersHeap = (h', (prop', None))
      ∧ pItems prop' = Some 2%nat
      ∧ (∀ k, buildPropertyExample id
                (buildExample map_to_list id (fuelFor (0 + 1) + k) h')
                "users" prop' 0
              = Some (VList [item])).
Proof.
  destruct (array_of_references_example map_to_list id userSpec "users"
              listProperty usersHeap 1 userDefinition 0 0)
    as (Hbefore & h' & prop' & item & Hres & Hitems & _ & _ & Hafter).
  - reflexivity.
  - reflexivity.
  - reflexivity.
  - reflexivity.
  - reflexivity.
  - left. exists "User". split; reflexivity.
  - split; [exact Hbefore|]. exists h', prop', item.
    split; [exact Hres|]. split; [exact Hitems|exact Hafter].
Defined.

Lemma shown_type_through_resolution_witness :
  getPropertyType usersHeap listProperty = "array[User]"
  ∧ ∃ h' prop',
      resolveProperty userSpec listProperty usersHeap = (h', (prop', None))
      ∧ getPropertyType h' prop' = "array[object]".
Proof.
  destruct (shown_type_through_resolution userSpec listProperty usersHeap)
    as [_ Harr].
  apply (Harr 1%nat userDefinition); try reflexivity.
  left. exists "User". split; reflexivity.
Defined.

Lemma no_constraints_iff_witness :
  HasPrefix (formatConstraints "name" (typed "string") ["id"; "name"])
    "<strong>Required</strong>" = true.
Proof.
  apply (no_constraints_iff "name" (typed "string") ["id"; "name"]).
  apply elem_of_cons. right. apply elem_of_cons. by left.
Defined.

Lemma resolve_returns_witness :
  ∃ h' r, ∀ j,
    ResolveSchema map_to_list userSpec (2 + j) (Some 0%nat) usersHeap
    = Some (h', r).
Proof.
  apply (resolve_returns map_to_list userSpec 1 (Some 0%nat) usersHeap).
  apply ends_next; [reflexivity|]. by apply ends_ref.
Defined.

Lemma resolve_self_loop_witness :
  ResolveSchema map_to_list userSpec 1000 (Some 0%nat) loopHeap = None.
Proof.
  apply (resolve_self_loop map_to_list userSpec 0 loopHeap); reflexivity.
Defined.

Lemma shown_name_is_looked_up_name_witness :
  ExtractRefName ("#/definitions/" +:+ "User") = "User"
  ∧ ExtractRefName ("#/definitions/" +:+ "a/b") ≠ "a/b".
Proof.
  split.
  - by apply (shown_name_is_looked_up_name "User").
  - intros H. by apply (shown_name_is_looked_up_name "a/b") in H.
Defined.

Lemma confluence_enabled_iff_witness :
  IsConfluenceEnabled
    (LoadFromEnv (λ key, if decide (key = "CONFLUENCE_PARENT_PAGE_ID") then ""
                         else "value")).1
  = true.
Proof.
  apply (confluence_enabled_iff
           (λ key, if decide (key = "CONFLUENCE_PARENT_PAGE_ID") then ""
                   else "value")).
  repeat split; discriminate.
Defined.

(** * Resolution in place *)

Lemma walked_same (h h1 : heap) (l x : loc) :
  (∀ y, Ref (h1 !!! y) = Ref (h !!! y)) →
  (∀ y, Items (h1 !!! y) = Items (h !!! y)) →
  walked h l x → walked h1 l x.
Proof.
  intros Hr Hi Hw. induction Hw as [l Hl|l l' x Hl Hstep Hw IH].
  - apply walked_here. by rewrite Hr.
  - eapply walked_next; [by rewrite Hr|by rewrite Hi|done].
Qed.

Lemma chainEnds_walked (h : heap) (k : nat) (l x : loc) :
  walked h l x → chainEnds h k (Some l) →
  ∃ k', (k' ≤ k)%nat ∧ chainEnds h k' (Some x).
Proof.
  intros Hw. revert k. induction Hw as [l Hl|l l' x Hl Hstep Hw IH]; intros k Hc.
  - by exists k.
  - inversion Hc as [|k0 l0 Href|k0 l0 _ Hc']; subst; [done|].
    rewrite Hstep in Hc'. destruct (IH _ Hc') as (k' & Hle & Hk').
    exists k'. split; [lia|done].
Qed.

(** A call that ends does not come back to a schema it has entered. *)
Lemma chainEnds_no_cycle (h : heap) (k : nat) (l i : loc) :
  chainEnds h k (Some l) → Ref (h !!! l) = "" → Items (h !!! l) = Some i →
  ¬ walked h i l.
Proof.
  induction k as [k IH] using lt_wf_ind. intros Hc Href Hitems Hw.
  inversion Hc as [|k0 l0 Href'|k0 l0 _ Hc']; subst; [done|].
  rewrite Hitems in Hc'.
  destruct (chainEnds_walked _ _ _ _ Hw Hc') as (k' & Hle & Hk').
  apply (IH k'); [lia|done..].
Qed.

Section InPlace.
Variable range : gmap string Property → list (string * Property).
Variable spec : Spec.

Lemma resolveAllProperties_chain (l : loc) (h h1 : heap) (err : option error) :
  resolveAllProperties range spec l h = (h1, err) →
  (∀ y, Ref (h1 !!! y) = Ref (h !!! y)) ∧ (∀ y, Items (h1 !!! y) = Items (h !!! y)).
Proof.
  intros ([_ He1] & _ & Hnew1 & Hitems1 & _)%resolveAllProperties_effect.
  split; [intros y; by destruct (He1 y)|].
  intros y. destruct (decide (y < length h)%nat); [by apply Hitems1|].
  rewrite Hnew1 by lia. by rewrite zero_beyond by lia.
Qed.

(** A call that succeeds has met [nil] or a reference. *)
Lemma ResolveSchema_ends (n : nat) (p : option loc) (h h' : heap)
    (resolved : option loc) :
  ResolveSchema range spec n p h = Some (h', Ok resolved) → chainEnds h n p.
Proof.
  revert p h h' resolved. induction n as [|n IH]; intros p h h' resolved H; [done|].
  destruct p as [l|]; [|apply ends_nil].
  destruct (decide (Ref (h !!! l) ≠ "")) as [Href|Href]; [by apply ends_ref|].
  apply dec_stable in Href. rewrite ResolveSchema_inline in H by done.
  destruct (resolveAllProperties range spec l h) as [h1 [e|]] eqn:Hblock; [done|].
  apply resolveAllProperties_chain in Hblock as [Hr Hi].
  apply ends_next; [done|]. rewrite <- Hi.
  destruct (Items (h1 !!! l)) as [i|]; [|apply ends_nil].
  destruct (ResolveSchema range spec n (Some i) h1) as [[h2 [r2|e]]|] eqn:Hrec;
    [|done..].
  apply IH in Hrec. by eapply chainEnds_same; [| |done].
Qed.

(** The call writes to the schemas it enters, and to no other. *)
Lemma ResolveSchema_walked (n : nat) (l : loc) (h h' : heap)
    (r : res (option loc)) (x : loc) :
  ResolveSchema range spec n (Some l) h = Some (h', r) →
  (x < length h)%nat → ¬ walked h l x → h' !! x = h !! x.
Proof.
  revert l h h' r. induction n as [|n IH]; intros l h h' r H Hx Hw; [done|].
  destruct (decide (Ref (h !!! l) ≠ "")) as [Href|Href].
  { eapply ResolveSchema_no_walk in H; [|right; by exists l].
    by apply grows_lookup. }
  apply dec_stable in Href. rewrite ResolveSchema_inline in H by done.
  assert (x ≠ l) as Hne by (intros ->; by apply Hw, walked_here).
  destruct (resolveAllProperties range spec l h) as [h1 err] eqn:Hblock.
  pose proof (resolveAllProperties_chain _ _ _ _ Hblock) as [Hr Hi].
  apply resolveAllProperties_effect in Hblock as ([Hlen1 _] & Hframe1 & _).
  destruct err as [e|]; [simplify_eq; by apply Hframe1|].
  destruct (Items (h1 !!! l)) as [i|] eqn:Hitems; [|simplify_eq; by apply Hframe1].
  assert (¬ walked h1 i x) as Hw1.
  { intros Hw1. apply Hw. eapply walked_next; [done|by rewrite <- Hi|].
    by eapply walked_same; [| |done]. }
  destruct (ResolveSchema range spec n (Some i) h1) as [[h2 [r2|e]]|] eqn:Hrec;
    [| |done]; simplify_eq.
  - rewrite list_lookup_insert_ne by done.
    rewrite (IH _ _ _ _ Hrec) by (done || lia). by apply Hframe1.
  - rewrite (IH _ _ _ _ Hrec) by (done || lia). by apply Hframe1.
Qed.

(** What the block on the properties leaves in the schema: the fields it
    had, each as [resolveProperty] returns it. *)
Lemma resolveAllProperties_lookup (l : loc) (h h1 : heap) :
  (∀ m, range m ≡ₚ map_to_list m) →
  resolveAllProperties range spec l h = (h1, None) →
  (∀ key, is_Some (Properties (h1 !!! l) !! key)
          ↔ is_Some (Properties (h !!! l) !! key))
  ∧ ∀ key prop, Properties (h !!! l) !! key = Some prop →
      ∃ hk hk' prop',
        grows h hk ∧ resolveProperty spec prop hk = (hk', (prop', None))
        ∧ Properties (h1 !!! l) !! key = Some prop'.
Proof.
  intros range_perm H.
  pose proof (resolveAllProperties_fields range range_perm spec _ _ _ _ H) as Hkept.
  unfold resolveAllProperties in H.
  destruct (decide (0 < size (Properties (h !!! l)))) as [Hsz|Hsz].
  2:{ simplify_eq. split; [done|]. intros key prop Hkey.
      assert (Properties (h1 !!! l) = ∅) as Hempty
        by (apply map_size_empty_inv; lia).
      by rewrite Hempty, lookup_empty in Hkey. }
  assert (l < length h)%nat as Hl.
  { destruct (decide (l < length h)%nat); [done|].
    rewrite zero_beyond in Hsz by lia. simpl in Hsz.
    rewrite map_size_empty in Hsz. lia. }
  split.
  { intros key. specialize (Hkept l Hl key).
    destruct (Properties (h !!! l) !! key), (Properties (h1 !!! l) !! key);
      try done; by split; intros [? ?]; try done; eexists. }
  destruct (resolveProperties spec _ ∅ h) as [h0 [m|e]] eqn:Hprops; [|done].
  pose proof (resolveProperties_grows _ _ _ _ _ _ Hprops) as [Hg _].
  apply resolveProperties_lookup in Hprops as [_ Hin];
    [|by apply range_NoDup].
  simplify_eq.
  assert (l < length h0)%nat as Hl0 by (apply grows_evolves in Hg as [? _]; lia).
  rewrite list_lookup_total_insert_eq by done. simpl.
  intros key prop Hkey.
  destruct (Hin key prop) as (hk & hk' & prop' & Hgk & Hres & _ & Hm);
    [by apply range_elem|].
  by exists hk, hk', prop'.
Qed.

(** C3, as the code has it.  The outcome of [ResolveSchema] is determined by
    the tables, the store and the pointer: any two bounds that let the call
    return give the same store and the same result.  The call reads the
    tables only.  In the store it keeps every cell, with its kind, format,
    reference and required names; it leaves alone every cell that is not
    reached from the schema passed in through [Items]; and it leaves alone
    every cell when that schema is [nil] or a reference: for [nil] the
    result is [nil], and for a reference that resolves it is a new cell,
    the copy of the definition.  A schema that is written out is resolved
    in place: the pointer returned is the pointer passed in; its fields are
    replaced by the resolved map, which has the same keys and at each what
    [resolveProperty] returns for the field that was there (when [range]
    visits each entry once); and its element type is replaced by the pointer
    that the call on the element type returns, a new copy of the definition
    when the element type was a reference. *)
Theorem resolve_in_place (n : nat) (p : option loc) (h h' : heap)
    (r : res (option loc)) :
  ResolveSchema range spec n p h = Some (h', r) →
  (∀ m a, ResolveSchema range spec m p h = Some a → a = (h', r))
  ∧ (∀ x s, h !! x = Some s →
       ∃ s', h' !! x = Some s'
         ∧ Type_ s' = Type_ s ∧ Format s' = Format s
         ∧ Ref s' = Ref s ∧ Required s' = Required s)
  ∧ (∀ x s, h !! x = Some s → ¬ onItemsChain h p x → h' !! x = Some s)
  ∧ (p = None ∨ (∃ l, p = Some l ∧ Ref (h !!! l) ≠ "") →
       ∀ x s, h !! x = Some s → h' !! x = Some s)
  ∧ (∀ l resolved, p = Some l → Ref (h !!! l) = "" → r = Ok resolved →
       resolved = Some l)
  ∧ (p = None → h' = h ∧ r = Ok None)
  ∧ (∀ l resolved, p = Some l → Ref (h !!! l) ≠ "" → r = Ok resolved →
       ∃ D, refersTo spec (Ref (h !!! l)) D
         ∧ h' = (h ++ [mkSchema (dType D) "" "" (dProperties D) (dRequired D) None])%list
         ∧ resolved = Some (length h))
  ∧ (∀ l resolved, p = Some l → Ref (h !!! l) = "" → r = Ok resolved →
       ((∀ m, range m ≡ₚ map_to_list m) →
        (∀ key, is_Some (Properties (h' !!! l) !! key)
                ↔ is_Some (Properties (h !!! l) !! key))
        ∧ ∀ key prop, Properties (h !!! l) !! key = Some prop →
            ∃ hk hk' prop',
              grows h hk ∧ resolveProperty spec prop hk = (hk', (prop', None))
              ∧ Properties (h' !!! l) !! key = Some prop')
       ∧ (Items (h !!! l) = None → Items (h' !!! l) = None)
       ∧ (∀ i, Items (h !!! l) = Some i →
            ∃ m h1 h2,
              ResolveSchema range spec m (Some i) h1
              = Some (h2, Ok (Items (h' !!! l)))
              ∧ evolves h h1
              ∧ (∀ x, x ≠ l → (x < length h)%nat → h1 !! x = h !! x)
              ∧ Properties (h1 !!! l) = Properties (h' !!! l)
              ∧ ∀ x, x ≠ l → h' !! x = h2 !! x)
       ∧ (∀ i D, Items (h !!! l) = Some i → refersTo spec (Ref (h !!! i)) D →
            ∃ j, Items (h' !!! l) = Some j ∧ (length h ≤ j)%nat
              ∧ h' !! j
                = Some (mkSchema (dType D) "" "" (dProperties D) (dRequired D) None))).
Proof.
  intros H. split.
  { intros m a Ha. symmetry. by eapply ResolveSchema_agree. }
  pose proof (ResolveSchema_effect _ _ _ _ _ _ _ H)
    as ([Hlen He] & Hframe & _ & _ & Hsame).
  split.
  { intros x s Hx. assert (x < length h)%nat as Hlt by by eapply lookup_lt_Some.
    exists (h' !!! x). split; [apply list_lookup_lookup_total_lt; lia|].
    destruct (He x) as (Hr & _ & Hk). destruct (Hk Hlt) as (? & ? & ?).
    by rewrite (list_lookup_total_correct _ _ _ Hx) in *. }
  split.
  { intros x s Hx Hc. rewrite <- Hx. apply Hframe; [|done].
    by eapply lookup_lt_Some. }
  split.
  { intros Hp x s Hx. rewrite <- Hx.
    eapply grows_lookup; [by eapply ResolveSchema_no_walk|].
    by eapply lookup_lt_Some. }
  split.
  { intros l resolved -> Href ->. by eapply Hsame. }
  split.
  { intros ->. destruct n as [|n]; [done|]. simpl in H. by simplify_eq. }
  split.
  { intros l resolved -> Href ->. destruct n as [|n]; [done|].
    rewrite ResolveSchema_ref in H by done.
    destruct (resolveRef spec (Ref (h !!! l)) h) as [h1 [l'|e]] eqn:Hres;
      [|done].
    simplify_eq. apply resolveRef_Ok in Hres as (D & HD & -> & ->).
    by exists D. }
  clear Hlen He Hframe Hsame. intros l resolved -> Href ->.
  pose proof (ResolveSchema_ends _ _ _ _ _ H) as Hends.
  destruct n as [|n]; [done|]. rewrite ResolveSchema_inline in H by done.
  destruct (resolveAllProperties range spec l h) as [h1 [e|]] eqn:Hblock; [done|].
  pose proof (resolveAllProperties_chain _ _ _ _ Hblock) as [Hr1 Hi1].
  pose proof (resolveAllProperties_effect _ _ _ _ _ _ Hblock)
    as (Hev1 & Hframe1 & _).
  destruct (Items (h1 !!! l)) as [i|] eqn:Hitems.
  2:{ simplify_eq. split; [intros Hperm; by apply resolveAllProperties_lookup|].
      split; [done|]. rewrite <- Hi1, Hitems. split; intros; done. }
  destruct (ResolveSchema range spec n (Some i) h1) as [[h2 [ri|e]]|] eqn:Hrec;
    [|done..].
  simplify_eq. rewrite Hi1 in Hitems.
  assert (l < length h)%nat as Hl.
  { destruct (decide (l < length h)%nat); [done|].
    by rewrite zero_beyond in Hitems by lia. }
  assert (l < length h1)%nat as Hl1 by (destruct Hev1; lia).
  pose proof (ResolveSchema_effect _ _ _ _ _ _ _ Hrec) as ([Hlen2 _] & _).
  assert (l < length h2)%nat as Hl2 by lia.
  assert (h2 !! l = h1 !! l) as Hkept.
  { apply (ResolveSchema_walked _ _ _ _ _ _ Hrec Hl1).
    intros Hw. apply (chainEnds_no_cycle h (S n) l i Hends Href Hitems).
    by eapply walked_same; [| |done]. }
  assert (h2 !!! l = h1 !!! l) as Hkept'.
  { apply list_lookup_total_correct. rewrite Hkept.
    by apply list_lookup_lookup_total_lt. }
  rewrite list_lookup_total_insert_eq by done. cbn [Properties Items setItems].
  rewrite Hkept'. split; [intros Hperm; by apply resolveAllProperties_lookup|].
  split; [by rewrite Hitems|]. split.
  - intros i' Hi'. rewrite Hitems in Hi'. injection Hi' as <-.
    exists n, h1, h2. split; [done|]. split; [done|].
    split; [done|]. split; [done|].
    intros x Hne. by rewrite list_lookup_insert_ne.
  - intros i' D Hi' HD. rewrite Hitems in Hi'. injection Hi' as <-.
    rewrite <- Hr1 in HD.
    pose proof (refersTo_nonempty _ _ _ HD) as Hne.
    destruct n as [|n]; [done|].
    rewrite (ResolveSchema_refersTo _ _ _ D n i h1 HD eq_refl) in Hrec.
    simplify_eq. exists (length h1). split; [done|].
    split; [destruct Hev1; lia|].
    rewrite list_lookup_insert_ne by lia.
    by rewrite lookup_app_r, Nat.sub_diag.
Qed.
End InPlace.

Lemma resolve_in_place_witness :
  ∃ h',
    ResolveSchema map_to_list userSpec 3 (Some 0%nat) usersHeap
    = Some (h', Ok (Some 0%nat))
    ∧ h' !! 1%nat = Some (refSchema "#/definitions/User")
    ∧ (∃ s', h' !! 0%nat = Some s' ∧ Type_ s' = "array")
    ∧ ∃ j, Items (h' !!! 0%nat) = Some j ∧ (2 ≤ j)%nat
        ∧ h' !! j
          = Some (mkSchema "object" "" ""
                    {[ "id" := typed "integer"; "name" := typed "string" ]} [] None).
Proof.
  eexists. split; [vm_compute; reflexivity|].
  destruct (resolve_in_place map_to_list userSpec 3 (Some 0%nat) usersHeap _ _
              eq_refl) as (_ & Hkeep & _ & _ & _ & _ & _ & Hplace).
  split; [reflexivity|]. split.
  { destruct (Hkeep 0%nat _ eq_refl) as (s' & Hs' & Hty & _). by exists s'. }
  destruct (Hplace 0%nat (Some 0%nat) eq_refl eq_refl eq_refl)
    as (_ & _ & _ & Hnew).
  apply (Hnew 1%nat userDefinition eq_refl).
  left. exists "User". split; reflexivity.
Defined.
